(** * KuiperInfer: the convolution layer (source/layer/binocular/convolution.cpp)

    A shallow embedding of [ConvolutionLayer]: its constructor, [Forward]
    and the builder [GetInstance].

    - [uint32_t] values are integers of [Z] with the wrap-around modulo
      [2^32] written out at every arithmetic operation of the source.
    - [double] is Rocq's primitive binary64 [float].
    - A [std::shared_ptr<Tensor>] is a nullable location into a store of
      tensors, so that two pointers to one tensor see each other's writes.
    - A C++ exception, a failed glog [CHECK] and undefined behaviour are
      faults: the call does not return a status. *)

From Stdlib Require Import ZArith Lia Floats.
From stdpp Require Import base option list gmap strings.

Local Open Scope Z_scope.

(** ** 32-bit unsigned arithmetic *)

Module U32.

Definition modulus : Z := 2 ^ 32.

Definition wrap (z : Z) : Z := z mod modulus.

Definition add (a b : Z) : Z := wrap (a + b).
Definition sub (a b : Z) : Z := wrap (a - b).

(** [a / b] on unsigned operands; the caller rules out [b = 0]. *)
Definition div (a b : Z) : Z := a / b.

(** [int(x)] for an unsigned [x]: values from [2^31] on come out negative. *)
Definition to_int (z : Z) : Z := if z <? 2 ^ 31 then z else z - modulus.

End U32.

(** ** Outcomes *)

Inductive InferStatus :=
  | kInferSuccess
  | kInferFailedInputEmpty
  | kInferFailedWeightParameterError
  | kInferFailedBiasParameterError
  | kInferFailedOutputSizeError
  | kInferFailedChannelParameterError.

(** What stops a call without a status. *)
Inductive fault :=
  | NullDeref        (* [->] on a null shared_ptr *)
  | DivByZero        (* unsigned division by a zero stride *)
  | OutOfRange       (* [std::vector::at], [Tensor::at], [submat], unchecked [Mat::at] *)
  | SizeMismatch     (* element-wise operation on matrices of different sizes *)
  | CheckFailed      (* glog [CHECK] *)
  | OutOfFuel.       (* the loop budget of the model ran out *)

(** One step of a function body: fall through with a value, leave the
    function with a status, or stop with a fault. *)
Inductive step (R A : Type) :=
  | Next (a : A)
  | Return (s : R)
  | Crash (f : fault).
Arguments Next {R A} a.
Arguments Return {R A} s.
Arguments Crash {R A} f.

#[global] Instance step_bind {R} : MBind (step R) := fun A B k m =>
  match m with
  | Next a => k a
  | Return s => Return s
  | Crash f => Crash f
  end.

#[global] Instance step_ret {R} : MRet (step R) := fun A a => Next a.

Definition guard {R} (b : bool) (f : fault) : step R unit :=
  if b then Next tt else Crash f.

Definition of_option {R A} (o : option A) (f : fault) : step R A :=
  match o with Some a => Next a | None => Crash f end.

(** ** Tensors *)

(** [arma::mat]: a dense matrix of doubles. *)
Record Mat := mkMat {
  m_rows : Z;
  m_cols : Z;
  m_at : Z -> Z -> float
}.

(** [Tensor]: a dense cube addressed as (channel, row, column). *)
Record Tensor := mkTensor {
  n_channels : Z;
  n_rows : Z;
  n_cols : Z;
  cell : Z -> Z -> Z -> float
}.

Definition channels (t : Tensor) : Z := U32.wrap (n_channels t).
Definition rows (t : Tensor) : Z := U32.wrap (n_rows t).
Definition cols (t : Tensor) : Z := U32.wrap (n_cols t).

Definition shape (t : Tensor) : Z * Z * Z := (n_channels t, n_rows t, n_cols t).

Definition tensor_empty (t : Tensor) : bool :=
  (n_channels t * n_rows t * n_cols t =? 0).

(** Modelled from the spec: the Tensor constructor, which is not in this
    file of the repository. "construction by (channels, rows, cols)",
    "all values initialized to zero". Memory is not bounded here: a
    tensor of any size can be made. *)
Definition Tensor_new (c r w : Z) : Tensor :=
  mkTensor c r w (fun _ _ _ => 0%float).

(** Modelled from the spec: Tensor::Padding, which is not in this file of
    the repository. "a zero-padding operation taking (left, right, top,
    bottom, fill_value)"; it "pad[s] the input symmetrically on all four
    spatial edges [...], increasing height and width by 2*padding each".
    The call site discards the result and reads the tensor's size
    afterwards: the operation works in place. *)
Definition Padding (t : Tensor) (left right top bottom : Z) (v : float) : Tensor :=
  mkTensor (n_channels t)
           (n_rows t + top + bottom)
           (n_cols t + left + right)
           (fun ch r c =>
              if (top <=? r) && (r <? top + n_rows t) &&
                 (left <=? c) && (c <? left + n_cols t)
              then cell t ch (r - top) (c - left)
              else v).

(** Modelled from the spec: Tensor::at(channel), "per-channel 2D plane
    access by index". *)
Definition plane (t : Tensor) (ch : Z) : step InferStatus Mat :=
  _ ← guard ((0 <=? ch) && (ch <? n_channels t)) OutOfRange;
  Next (mkMat (n_rows t) (n_cols t) (cell t ch)).

(** Writing a plane back: [Tensor::at] returns a reference, so what is
    done to the plane is done to the tensor. *)
Definition set_plane (t : Tensor) (ch : Z) (m : Mat) : Tensor :=
  mkTensor (n_channels t) (n_rows t) (n_cols t)
           (fun ch' r c => if ch' =? ch then m_at m r c else cell t ch' r c).

(** [m.submat(r1, c1, r2, c2)], both corners included. *)
Definition submat (m : Mat) (r1 c1 r2 c2 : Z) : step InferStatus Mat :=
  _ ← guard ((r1 <=? r2) && (c1 <=? c2) && (r2 <? m_rows m) && (c2 <? m_cols m))
            OutOfRange;
  Next (mkMat (r2 - r1 + 1) (c2 - c1 + 1) (fun r c => m_at m (r1 + r) (c1 + c))).

(** [a % b]: the element-wise product. *)
Definition schur (a b : Mat) : step InferStatus Mat :=
  _ ← guard ((m_rows a =? m_rows b) && (m_cols a =? m_cols b)) SizeMismatch;
  Next (mkMat (m_rows a) (m_cols a) (fun r c => (m_at a r c * m_at b r c)%float)).

(** Modelled from the spec: arma::accu, "sum all products"; "row-major,
    then column-major within a channel". *)
Definition accu (m : Mat) : float :=
  foldl (fun acc r =>
           foldl (fun acc' c => (acc' + m_at m r c)%float) acc (seqZ 0 (m_cols m)))
        0%float (seqZ 0 (m_rows m)).

(** [m.at(i, j) += v]; [Mat::at] checks no bounds, outside them the
    behaviour is undefined. *)
Definition add_at (m : Mat) (i j : Z) (v : float) : step InferStatus Mat :=
  _ ← guard ((0 <=? i) && (i <? m_rows m) && (0 <=? j) && (j <? m_cols m)) OutOfRange;
  Next (mkMat (m_rows m) (m_cols m)
              (fun r c => if (r =? i) && (c =? j) then (m_at m r c + v)%float
                          else m_at m r c)).

(** [arma::mat b(r, c); b.fill(v)]. *)
Definition filled (r c : Z) (v : float) : Mat := mkMat r c (fun _ _ => v).

(** [a += b]. *)
Definition mat_add (a b : Mat) : step InferStatus Mat :=
  _ ← guard ((m_rows a =? m_rows b) && (m_cols a =? m_cols b)) SizeMismatch;
  Next (mkMat (m_rows a) (m_cols a) (fun r c => (m_at a r c + m_at b r c)%float)).

(** [t.data().front()]: the first element of the cube. *)
Definition front (t : Tensor) : step InferStatus float :=
  _ ← guard (negb (tensor_empty t)) OutOfRange;
  Next (cell t 0 0 0).

(** ** The store *)

Abbreviation loc := nat.

(** A [std::shared_ptr<Tensor>]: [None] is the null pointer. *)
Abbreviation ptr := (option nat).

Abbreviation heap := (list Tensor).

Definition deref {R} (h : heap) (p : ptr) : step R Tensor :=
  match p with
  | Some l => of_option (h !! l) NullDeref
  | None => Crash NullDeref
  end.

(** [std::make_shared<Tensor>(...)]. *)
Definition make_shared (h : heap) (t : Tensor) : heap * ptr :=
  (h ++ [t], Some (length h)).

(** ** Loops *)

(** [for (uint32_t i = 0; i < n; ++i)]: [i] cannot wrap below [n]. *)
Fixpoint for_each {R S} (idx : list Z) (body : Z -> S -> step R S) (s : S) : step R S :=
  match idx with
  | [] => Next s
  | i :: rest => s' ← body i s; for_each rest body s'
  end.

Definition for_count {R S} (n : Z) (body : Z -> S -> step R S) (s : S) : step R S :=
  for_each (seqZ 0 n) body s.

(** [for (uint32_t r = r0; r < bound; r += stride)]: the increment wraps,
    so the loop may not end; [fuel] bounds its iterations. *)
Fixpoint for_stride {R S} (fuel : nat) (r bound stride : Z)
    (body : Z -> S -> step R S) (s : S) : step R S :=
  if r <? bound then
    match fuel with
    | O => Crash OutOfFuel
    | Datatypes.S fuel' =>
        s' ← body r s;
        for_stride fuel' (U32.add r stride) bound stride body s'
    end
  else Next s.

(** ** The layer *)

(** The state of a [ConvolutionLayer]; [weights_] and [bias_] are the
    vectors of shared pointers it inherits from [ParamLayer]. *)
Record ConvolutionLayer := mkConv {
  padding_ : Z;
  stride_ : Z;
  use_bias_ : bool;
  weights_ : list ptr;
  bias_ : list ptr
}.

(** One turn of the constructor's loop: a weight tensor, and a bias
    tensor when [use_bias_] is set. *)
Definition ctor_step (in_channel kernel_h kernel_w : Z) (use_bias : bool)
    (acc : heap * list ptr * list ptr) : heap * list ptr * list ptr :=
  let '(h, ws, bs) := acc in
  let '(h1, weight) := make_shared h (Tensor_new in_channel kernel_h kernel_w) in
  if use_bias then
    let '(h2, bias) := make_shared h1 (Tensor_new 1 1 1) in
    (h2, ws ++ [weight], bs ++ [bias])
  else (h1, ws ++ [weight], bs).

(** [ConvolutionLayer::ConvolutionLayer]; the parameters are [uint32_t]. *)
Definition ConvolutionLayer_new (output_channel in_channel kernel_h kernel_w
    padding stride : Z) (use_bias : bool) (h : heap) : heap * ConvolutionLayer :=
  let '(h', ws, bs) :=
    Nat.iter (Z.to_nat output_channel)
             (ctor_step in_channel kernel_h kernel_w use_bias) (h, [], []) in
  (h', mkConv padding stride use_bias ws bs).

(** ** Forward *)

(** Lines 82-87: the two window loops over one input channel. *)
Definition slide (fuel : nat) (stride input_h input_w kernel_h kernel_w : Z)
    (input_channel kernel_channel : Mat) (output_channel : Mat) : step InferStatus Mat :=
  for_stride fuel 0 (U32.add (U32.sub input_h kernel_h) 1) stride
    (fun r out =>
       for_stride fuel 0 (U32.add (U32.sub input_w kernel_w) 1) stride
         (fun c out' =>
            region ← submat input_channel r c
                       (U32.sub (U32.add r kernel_h) 1)
                       (U32.sub (U32.add c kernel_w) 1);
            prod ← schur region kernel_channel;
            add_at out' (U32.to_int (U32.div r stride))
                        (U32.to_int (U32.div c stride)) (accu prod))
         out)
    output_channel.

(** Lines 61-62: [uint32_t(std::floor((input - kernel) / stride_ + 1))],
    all of it in [uint32_t]; [std::floor] sees an integer. *)
Definition computed_output (stride input kernel : Z) : Z :=
  U32.add (U32.div (U32.sub input kernel) stride) 1.

(** Lines 77-99: one kernel convolved with the input, into plane [k] of
    the output, and the bias added. *)
Definition convolve (fuel : nat) (L : ConvolutionLayer) (h : heap)
    (input kernel : Tensor) (output_h output_w : Z) (k : Z) (out : Tensor)
    : step InferStatus (option Tensor) :=
  let input_w := cols input in
  let input_h := rows input in
  let input_c := channels input in
  let kernel_h := rows kernel in
  let kernel_w := cols kernel in
  output_channel ← plane out k;
  output_channel ←
    for_count input_c
      (fun ic oc =>
         input_channel ← plane input ic;
         kernel_channel ← plane kernel ic;
         slide fuel (stride_ L) input_h input_w kernel_h kernel_w
               input_channel kernel_channel oc)
      output_channel;
  bias ←
    (if negb (bool_decide (bias_ L = [])) && use_bias_ L
     then of_option (bias_ L !! Z.to_nat k) OutOfRange
     else Next None);
  output_channel ←
    match bias with
    | Some _ =>
        b ← deref h bias;
        v ← front b;
        mat_add output_channel (filled output_h output_w v)
    | None => Next output_channel
    end;
  Next (Some (set_plane out k output_channel)).

(** Lines 57-99: the body of the loop over the kernels, for kernel [k].
    The tensor behind [output_data] can be reached through that local
    only, until it is pushed: it is kept as a value here and enters the
    store at [push_back]. [None] is the null [output_data]. *)
Definition forward_kernel (fuel : nat) (L : ConvolutionLayer) (h : heap)
    (input : Tensor) (kernel_count : Z) (k : Z) (output_data : option Tensor)
    : step InferStatus (option Tensor) :=
  let input_w := cols input in
  let input_h := rows input in
  let input_c := channels input in
  kp ← of_option (weights_ L !! Z.to_nat k) OutOfRange;
  kernel ← deref h kp;
  let kernel_h := rows kernel in
  let kernel_w := cols kernel in
  _ ← guard (negb (stride_ L =? 0)) DivByZero;
  let output_h := computed_output (stride_ L) input_h kernel_h in
  let output_w := computed_output (stride_ L) input_w kernel_w in
  if (output_h <=? 0) || (output_w <=? 0) then Return kInferFailedOutputSizeError
  else
    let out :=
      match output_data with
      | Some t => t
      | None => Tensor_new kernel_count output_h output_w
      end in
    if negb (channels kernel =? input_c) then Return kInferFailedChannelParameterError
    else convolve fuel L h input kernel output_h output_w k out.

(** What one turn of the batch loop leaves behind. *)
Inductive item_outcome :=
  | ItemDone (h : heap) (output_data : Tensor)
  | ItemReturn (s : InferStatus) (h : heap)
  | ItemCrash (f : fault).

(** Lines 45-47: the input at [l] is padded where it lives. *)
Definition padded_store (L : ConvolutionLayer) (h : heap) (l : loc) (t : Tensor) : heap :=
  if 0 <? padding_ L
  then <[l := Padding t (padding_ L) (padding_ L) (padding_ L) (padding_ L) 0%float]> h
  else h.

(** Lines 44-101: the body of the batch loop up to the [CHECK]. *)
Definition forward_item (fuel : nat) (L : ConvolutionLayer) (h : heap)
    (input : ptr) : item_outcome :=
  match input with
  | None => ItemCrash NullDeref
  | Some l =>
      match h !! l with
      | None => ItemCrash NullDeref
      | Some t =>
          let h1 := padded_store L h l t in
          match h1 !! l with
          | None => ItemCrash NullDeref
          | Some input =>
              let kernel_count := U32.wrap (Z.of_nat (length (weights_ L))) in
              match for_count kernel_count
                      (forward_kernel fuel L h1 input kernel_count) None with
              | Crash f => ItemCrash f
              | Return s => ItemReturn s h1
              | Next None => ItemCrash NullDeref
              | Next (Some out) =>
                  if tensor_empty out then ItemCrash CheckFailed
                  else ItemDone h1 out
              end
          end
      end
  end.

(** How a call of [Forward] ends. *)
Inductive outcome :=
  | Finished (s : InferStatus) (h : heap) (outputs : list ptr)
  | Aborted (f : fault).

(** Lines 43-103: the batch loop, over the indices still to visit. *)
Fixpoint forward_batch (fuel : nat) (L : ConvolutionLayer) (inputs : list ptr)
    (idx : list Z) (h : heap) (outputs : list ptr) : outcome :=
  match idx with
  | [] => Finished kInferSuccess h outputs
  | i :: rest =>
      match inputs !! Z.to_nat i with
      | None => Aborted OutOfRange
      | Some input =>
          match forward_item fuel L h input with
          | ItemCrash f => Aborted f
          | ItemReturn s h1 => Finished s h1 outputs
          | ItemDone h1 out =>
              let '(h2, output_data) := make_shared h1 out in
              forward_batch fuel L inputs rest h2 (outputs ++ [output_data])
          end
      end
  end.

(** [ConvolutionLayer::Forward]. *)
Definition Forward (fuel : nat) (L : ConvolutionLayer) (h : heap)
    (inputs : list ptr) (outputs : list ptr) : outcome :=
  if bool_decide (inputs = []) then Finished kInferFailedInputEmpty h outputs
  else if bool_decide (weights_ L = []) then
    Finished kInferFailedWeightParameterError h outputs
  else if use_bias_ L && negb (length (bias_ L) =? length (weights_ L))%nat then
    Finished kInferFailedBiasParameterError h outputs
  else
    let batch_size := U32.wrap (Z.of_nat (length inputs)) in
    forward_batch fuel L inputs (seqZ 0 batch_size) h outputs.

(** ** The builder *)

Inductive ParseParameterAttrStatus :=
  | kParameterParseSuccess
  | kParameterMissingInChannel
  | kParameterMissingOutChannel
  | kParameterMissingPadding
  | kParameterMissingUseBias
  | kParameterMissingStride
  | kParameterMissingKernel
  | kParameterMissingAttrBias
  | kParameterMissingAttrWeight.

#[global] Instance ParseParameterAttrStatus_eq_dec : EqDecision ParseParameterAttrStatus.
Proof. solve_decision. Defined.

(** Modelled from the spec: RuntimeParameter and its subclasses, declared
    in parser/runtime_ir.hpp. "a tagged variant over {integer,
    integer-array, boolean, (other kinds not used here)}". *)
Inductive RuntimeParameter :=
  | RuntimeParameterUnknown
  | RuntimeParameterBool (value : bool)
  | RuntimeParameterInt (value : Z)
  | RuntimeParameterFloat (value : float)
  | RuntimeParameterString (value : string)
  | RuntimeParameterIntArray (value : list Z)
  | RuntimeParameterFloatArray (value : list float)
  | RuntimeParameterStringArray (value : list string).

(** Modelled from the spec: RuntimeAttribute, declared in
    parser/runtime_ir.hpp. It "carries a shape: ordered sequence of int
    and a typed numeric payload retrievable as a sequence of
    floating-point values". *)
Record RuntimeAttribute := mkAttr {
  attr_shape : list Z;
  attr_get : list float
}.

Record RuntimeOperator := mkOp {
  params : gmap string RuntimeParameter;
  attribute : gmap string RuntimeAttribute
}.

(** The three [dynamic_cast]s of the builder. *)
Definition as_int (p : RuntimeParameter) : option Z :=
  match p with RuntimeParameterInt v => Some v | _ => None end.

Definition as_int_array (p : RuntimeParameter) : option (list Z) :=
  match p with RuntimeParameterIntArray v => Some v | _ => None end.

Definition as_bool (p : RuntimeParameter) : option bool :=
  match p with RuntimeParameterBool v => Some v | _ => None end.

(** The pattern the builder repeats for each parameter: [find] the key,
    [dynamic_cast] the entry, and leave with the parameter's own status
    when either fails. *)
Definition require {A} (ps : gmap string RuntimeParameter) (key : string)
    (cast : RuntimeParameter -> option A) (missing : ParseParameterAttrStatus)
    : step ParseParameterAttrStatus A :=
  match ps !! key with
  | None => Return missing
  | Some p =>
      match cast p with
      | None => Return missing
      | Some v => Next v
      end
  end.

Record conv_params := mkParams {
  p_in_channel : Z;
  p_out_channel : Z;
  p_padding : list Z;
  p_use_bias : bool;
  p_stride : list Z;
  p_kernel : list Z
}.

(** Lines 112-173. *)
Definition parse_params (ps : gmap string RuntimeParameter)
    : step ParseParameterAttrStatus conv_params :=
  in_channel ← require ps "in_channels" as_int kParameterMissingInChannel;
  out_channel ← require ps "out_channels" as_int kParameterMissingOutChannel;
  padding ← require ps "padding" as_int_array kParameterMissingPadding;
  use_bias ← require ps "bias" as_bool kParameterMissingUseBias;
  stride ← require ps "stride" as_int_array kParameterMissingStride;
  kernel ← require ps "kernel_size" as_int_array kParameterMissingKernel;
  Next (mkParams in_channel out_channel padding use_bias stride kernel).

Definition volume (t : Tensor) : Z := n_channels t * n_rows t * n_cols t.

(** The cells of [t] read from [vals] from offset [off] on, "in row-major
    (channel, then row, then column) order". *)
Definition filled_from (t : Tensor) (vals : list float) (off : Z) : Tensor :=
  mkTensor (n_channels t) (n_rows t) (n_cols t)
    (fun ch r c =>
       match vals !! Z.to_nat (off + (ch * n_rows t + r) * n_cols t + c) with
       | Some v => v
       | None => cell t ch r c
       end).

(** Modelled from the spec: ParamLayer::set_bias, which is not in this
    file of the repository. The payload "is distributed one scalar per
    output-channel bias tensor, in order". *)
Fixpoint set_bias (bias : list ptr) (vals : list float) (h : heap)
    : step ParseParameterAttrStatus heap :=
  match bias, vals with
  | Some l :: bias', v :: vals' =>
      t ← of_option (h !! l) NullDeref;
      set_bias bias' vals' (<[l := filled_from t [v] 0]> h)
  | None :: _, _ :: _ => Crash NullDeref
  | _, _ => Next h
  end.

Fixpoint total_volume (h : heap) (ws : list ptr) : step ParseParameterAttrStatus Z :=
  match ws with
  | [] => Next 0
  | w :: ws' =>
      t ← deref h w;
      n ← total_volume h ws';
      Next (volume t + n)
  end.

Fixpoint distribute (ws : list ptr) (vals : list float) (off : Z) (h : heap)
    : step ParseParameterAttrStatus heap :=
  match ws with
  | [] => Next h
  | w :: ws' =>
      match w with
      | None => Crash NullDeref
      | Some l =>
          t ← of_option (h !! l) NullDeref;
          distribute ws' vals (off + volume t) (<[l := filled_from t vals off]> h)
      end
  end.

(** Modelled from the spec: ParamLayer::set_weights, which is not in this
    file of the repository. The payload "is distributed across the weights
    sequence in row-major (channel, then row, then column) order matching
    each weight tensor's declared shape; total element count must equal
    the sum of all weight tensor volumes (an implicit invariant the
    distribution step must enforce, failing if counts disagree)". *)
Definition set_weights (ws : list ptr) (vals : list float) (h : heap)
    : step ParseParameterAttrStatus heap :=
  n ← total_volume h ws;
  _ ← guard (n =? Z.of_nat (length vals)) CheckFailed;
  distribute ws vals 0 h.

(** How a call of [GetInstance] ends: with a status, the caller's
    [conv_layer] handle and the store, or with a fault. *)
Inductive build_outcome :=
  | Built (s : ParseParameterAttrStatus) (conv_layer : option ConvolutionLayer) (h : heap)
  | BuildAborted (f : fault).

(** Lines 190-219: the attributes, once the layer is made. *)
Definition load_attributes (attrs : gmap string RuntimeAttribute) (out_channel : Z)
    (L : ConvolutionLayer) (h : heap) : build_outcome :=
  match attrs !! "bias" with
  | None => Built kParameterMissingAttrBias (Some L) h
  | Some bias =>
      if bool_decide (attr_shape bias = []) ||
         negb (default 0 (attr_shape bias !! 0%nat) =? out_channel)
      then Built kParameterMissingAttrBias (Some L) h
      else
        match set_bias (bias_ L) (attr_get bias) h with
        | Return s => Built s (Some L) h
        | Crash f => BuildAborted f
        | Next h1 =>
            match attrs !! "weight" with
            | None => Built kParameterMissingAttrWeight (Some L) h1
            | Some weight =>
                if bool_decide (attr_shape weight = [])
                then Built kParameterMissingAttrWeight (Some L) h1
                else
                  match set_weights (weights_ L) (attr_get weight) h1 with
                  | Return s => Built s (Some L) h1
                  | Crash f => BuildAborted f
                  | Next h2 => Built kParameterParseSuccess (Some L) h2
                  end
            end
        end
  end.

(** [ConvolutionLayer::GetInstance]. [op] is the shared pointer to the
    operator, [conv_layer] what the caller's handle holds at the call. *)
Definition GetInstance (op : option RuntimeOperator)
    (conv_layer : option ConvolutionLayer) (h : heap) : build_outcome :=
  match op with
  | None => BuildAborted CheckFailed
  | Some op =>
      match parse_params (params op) with
      | Return s => Built s conv_layer h
      | Crash f => BuildAborted f
      | Next p =>
          let kernels := p_kernel p in
          let paddings := p_padding p in
          let strides := p_stride p in
          if negb ((length kernels =? 2)%nat && (length strides =? 2)%nat
                   && (length paddings =? 2)%nat)
          then BuildAborted CheckFailed
          else
            let '(h1, L) :=
              ConvolutionLayer_new
                (U32.wrap (p_out_channel p)) (U32.wrap (p_in_channel p))
                (U32.wrap (default 0 (kernels !! 0%nat)))
                (U32.wrap (default 0 (kernels !! 1%nat)))
                (U32.wrap (default 0 (paddings !! 0%nat)))
                (U32.wrap (default 0 (strides !! 0%nat)))
                (p_use_bias p) h in
            load_attributes (attribute op) (p_out_channel p) L h1
      end
  end.

(** ** Specification-side definitions *)

(** A pointer of the layer leads to a tensor of the given shape. *)
Definition holds_shape (h : heap) (sh : Z * Z * Z) (p : ptr) : Prop :=
  exists l t, p = Some l /\ h !! l = Some t /\ shape t = sh.

(** The invariants of the layer state. *)
Definition layer_invariant (output_channel in_channel kernel_h kernel_w : Z)
    (use_bias : bool) (L : ConvolutionLayer) (h : heap) : Prop :=
  Z.of_nat (length (weights_ L)) = output_channel /\
  Forall (holds_shape h (in_channel, kernel_h, kernel_w)) (weights_ L) /\
  (if use_bias
   then length (bias_ L) = length (weights_ L) /\
        Forall (holds_shape h (1, 1, 1)) (bias_ L)
   else bias_ L = []).

(** The tensors of [ps] are not among the inputs of a call. *)
Definition apart (ps inputs : list ptr) : Prop :=
  forall l, Some l ∈ ps -> Some l ∉ inputs.

(** The variant a parameter is expected to have. *)
Inductive variant := VInt | VBool | VIntArray.

Definition has_variant (v : variant) (p : RuntimeParameter) : bool :=
  match v, p with
  | VInt, RuntimeParameterInt _ => true
  | VBool, RuntimeParameterBool _ => true
  | VIntArray, RuntimeParameterIntArray _ => true
  | _, _ => false
  end.

(** The six required parameters: key, expected variant and the signal of
    the parameter, in the order the builder looks at them. *)
Definition required : list (string * variant * ParseParameterAttrStatus) :=
  [("in_channels", VInt, kParameterMissingInChannel);
   ("out_channels", VInt, kParameterMissingOutChannel);
   ("padding", VIntArray, kParameterMissingPadding);
   ("bias", VBool, kParameterMissingUseBias);
   ("stride", VIntArray, kParameterMissingStride);
   ("kernel_size", VIntArray, kParameterMissingKernel)].

(** The key is present and its value has the expected variant. *)
Definition param_ok (ps : gmap string RuntimeParameter) (key : string)
    (v : variant) : bool :=
  match ps !! key with
  | Some p => has_variant v p
  | None => false
  end.

Definition entry_ok (ps : gmap string RuntimeParameter)
    (e : string * variant * ParseParameterAttrStatus) : bool :=
  param_ok ps e.1.1 e.1.2.

(** The signal of the first required parameter that fails validation. *)
Fixpoint first_failure (ps : gmap string RuntimeParameter)
    (req : list (string * variant * ParseParameterAttrStatus))
    : option ParseParameterAttrStatus :=
  match req with
  | [] => None
  | e :: rest => if entry_ok ps e then first_failure ps rest else Some e.2
  end.

(** The signals of the attribute phase, and success. *)
Definition attribute_phase (s : ParseParameterAttrStatus) : Prop :=
  s = kParameterMissingAttrBias \/ s = kParameterMissingAttrWeight \/
  s = kParameterParseSuccess.

(** The "bias" attribute is absent, or its shape is empty, or the first
    entry of its shape is not [out_channels]. *)
Definition bias_attribute_bad (attrs : gmap string RuntimeAttribute)
    (out_channels : Z) : Prop :=
  match attrs !! "bias" with
  | None => True
  | Some b => attr_shape b = [] \/ attr_shape b !! 0%nat <> Some out_channels
  end.

(** ** Definitions used by the proofs *)

(** The statuses a computation can leave with lie in [P]. *)
Definition returns_in {R A} (P : R -> Prop) (m : step R A) : Prop :=
  forall st, m = Return st -> P st.

(** The two statuses the kernel loop leaves with. *)
Definition kernel_failure (s : InferStatus) : Prop :=
  s = kInferFailedOutputSizeError \/ s = kInferFailedChannelParameterError.

(** The store an item leaves, whatever way it ends. *)
Definition item_store (o : item_outcome) : option heap :=
  match o with
  | ItemDone h _ | ItemReturn _ h => Some h
  | ItemCrash _ => None
  end.

(** What [n] turns of the constructor's loop build on top of [h]. *)
Definition ctor_inv (in_channel kernel_h kernel_w : Z) (use_bias : bool)
    (h0 : heap) (n : nat) (acc : heap * list ptr * list ptr) : Prop :=
  let '(h, ws, bs) := acc in
  (exists ext, h = h0 ++ ext) /\
  length ws = n /\
  Forall (holds_shape h (in_channel, kernel_h, kernel_w)) ws /\
  (if use_bias
   then length bs = n /\ Forall (holds_shape h (1, 1, 1)) bs
   else bs = []).

(** The layer can convolve inputs of [C] channels with kernels of
    [kernel_h] by [kernel_w]: its fields are in the range of their types,
    its weights are there and of one shape, and with [use_bias_] there is
    one non-empty bias tensor per kernel. *)
Record layer_ok (L : ConvolutionLayer) (h : heap) (C kernel_h kernel_w : Z) : Prop := {
  lo_padding : 0 <= padding_ L;
  lo_stride : 1 <= stride_ L;
  lo_kernel_h : 1 <= kernel_h;
  lo_kernel_w : 1 <= kernel_w;
  lo_channels : 0 <= C < U32.modulus;
  lo_weights : weights_ L <> [];
  lo_count : Z.of_nat (length (weights_ L)) < U32.modulus;
  lo_shapes : Forall (holds_shape h (C, kernel_h, kernel_w)) (weights_ L);
  lo_bias : use_bias_ L = true ->
            length (bias_ L) = length (weights_ L) /\
            Forall (fun p => exists l b, p = Some l /\ h !! l = Some b /\
                                         tensor_empty b = false) (bias_ L)
}.

(** The tensor [t] at [l] is an input the layer can convolve: it has the
    layer's channel count, the kernel fits into its padded plane, its
    sizes stay clear of the 32-bit limits, the loop budget covers a sweep
    of the plane, and padding it in place leaves the layer's tensors alone. *)
Record item_ok (fuel : nat) (L : ConvolutionLayer) (h : heap)
    (C kernel_h kernel_w : Z) (l : loc) (t : Tensor) : Prop := {
  io_lookup : h !! l = Some t;
  io_channels : n_channels t = C;
  io_rows : kernel_h <= n_rows t + 2 * padding_ L;
  io_cols : kernel_w <= n_cols t + 2 * padding_ L;
  io_rows_max : n_rows t + 2 * padding_ L + stride_ L <= 2 ^ 31;
  io_cols_max : n_cols t + 2 * padding_ L + stride_ L <= 2 ^ 31;
  io_fuel_rows : n_rows t + 2 * padding_ L <= Z.of_nat fuel;
  io_fuel_cols : n_cols t + 2 * padding_ L <= Z.of_nat fuel;
  io_apart : padding_ L <= 0 \/ ((Some l ∉ weights_ L) /\ (Some l ∉ bias_ L))
}.

Definition input_ok (fuel : nat) (L : ConvolutionLayer) (h : heap)
    (C kernel_h kernel_w : Z) (p : ptr) : Prop :=
  exists l t, p = Some l /\ item_ok fuel L h C kernel_h kernel_w l t.

(** A valid call of [Forward]. With padding, an input tensor listed twice
    would be padded twice: the inputs are then distinct tensors. *)
Record valid_call (fuel : nat) (L : ConvolutionLayer) (h : heap)
    (inputs : list ptr) (C kernel_h kernel_w : Z) : Prop := {
  vc_layer : layer_ok L h C kernel_h kernel_w;
  vc_nonempty : inputs <> [];
  vc_batch : Z.of_nat (length inputs) < U32.modulus;
  vc_inputs : Forall (input_ok fuel L h C kernel_h kernel_w) inputs;
  vc_distinct : padding_ L <= 0 \/ NoDup inputs
}.

(** The size of the output along one axis, for an input of size [n]. *)
Definition output_size (L : ConvolutionLayer) (n kernel : Z) : Z :=
  (n + 2 * padding_ L - kernel) / stride_ L + 1.

(** The output at [q] in store [h'] has the size the input at [p] in
    store [h] calls for. *)
Definition sized_for (L : ConvolutionLayer) (kernel_h kernel_w : Z)
    (h h' : heap) (p q : ptr) : Prop :=
  exists l t lo o,
    p = Some l /\ h !! l = Some t /\ q = Some lo /\ h' !! lo = Some o /\
    n_channels o = Z.of_nat (length (weights_ L)) /\
    n_rows o = output_size L (n_rows t) kernel_h /\
    n_cols o = output_size L (n_cols t) kernel_w.

(** The batch loop over the inputs themselves, for the proofs: [Forward]
    walks the same list by index. *)
Fixpoint forward_list (fuel : nat) (L : ConvolutionLayer) (inputs : list ptr)
    (h : heap) (outputs : list ptr) : outcome :=
  match inputs with
  | [] => Finished kInferSuccess h outputs
  | input :: rest =>
      match forward_item fuel L h input with
      | ItemCrash f => Aborted f
      | ItemReturn s h1 => Finished s h1 outputs
      | ItemDone h1 out =>
          let '(h2, output_data) := make_shared h1 out in
          forward_list fuel L rest h2 (outputs ++ [output_data])
      end
  end.

(** ** Concrete stores and layers for the examples *)

(** A tensor with every cell equal to [v]. *)
Definition constant (c r w : Z) (v : float) : Tensor :=
  mkTensor c r w (fun _ _ _ => v).

(** A layer with stride 1, no padding and no bias, whose one kernel is
    the tensor at location 1 of the store. *)
Definition layer_plain : ConvolutionLayer := mkConv 0 1 false [Some 1%nat] [].

(** A 5x5 input next to a 3x3 kernel. *)
Definition store_5x5 : heap := [constant 1 5 5 1%float; constant 1 3 3 1%float].

(** The operator of the scalar example: one input channel, one output
    channel, a 1x1 kernel, stride 1, no padding, weight 2.0 and bias 1.0. *)
Definition op_scalar : RuntimeOperator :=
  mkOp (list_to_map
          [("in_channels", RuntimeParameterInt 1);
           ("out_channels", RuntimeParameterInt 1);
           ("padding", RuntimeParameterIntArray [0; 0]);
           ("bias", RuntimeParameterBool true);
           ("stride", RuntimeParameterIntArray [1; 1]);
           ("kernel_size", RuntimeParameterIntArray [1; 1])])
       (list_to_map
          [("bias", mkAttr [1] [1%float]);
           ("weight", mkAttr [1; 1; 1; 1] [2%float])]).

(** The layer built from it next to an input of one cell holding 3.0,
    and the store the builder leaves. *)
Definition layer_scalar : ConvolutionLayer :=
  mkConv 0 1 true [Some 1%nat] [Some 2%nat].

Definition store_scalar : heap :=
  Eval vm_compute in
    match GetInstance (Some op_scalar) None [constant 1 1 1 3%float] with
    | Built _ _ h => h
    | BuildAborted _ => []
    end.

(** The same operator with an integer where the padding array should
    be, and with its "kernel_size" left out as well. *)
Definition op_padding_int : RuntimeOperator :=
  mkOp (<["padding" := RuntimeParameterInt 0]> (delete "kernel_size" (params op_scalar)))
       (attribute op_scalar).

(** The operator of the scalar example with three strides. *)
Definition op_three_strides : RuntimeOperator :=
  mkOp (<["stride" := RuntimeParameterIntArray [1; 1; 1]]> (params op_scalar))
       (attribute op_scalar).

(** An operator with three input channels, two kernels of 5 rows by 2
    columns and a bias, and no attribute at all. *)
Definition op_tall : RuntimeOperator :=
  mkOp (list_to_map
          [("in_channels", RuntimeParameterInt 3);
           ("out_channels", RuntimeParameterInt 2);
           ("padding", RuntimeParameterIntArray [0; 0]);
           ("bias", RuntimeParameterBool true);
           ("stride", RuntimeParameterIntArray [1; 1]);
           ("kernel_size", RuntimeParameterIntArray [5; 2])])
       ∅.

(** An operator with the bias switched off and no "bias" attribute. *)
Definition op_no_bias : RuntimeOperator :=
  mkOp (<["bias" := RuntimeParameterBool false]> (params op_scalar))
       (delete "bias" (attribute op_scalar)).

(** An input of two channels and one cell next to a 2x2 kernel of three
    channels: the channels differ and the kernel does not fit. *)
Definition store_two_channels : heap :=
  [constant 2 1 1 1%float; constant 3 2 2 1%float].

(** An input of one cell next to a 3x3 kernel. *)
Definition store_small : heap := [constant 1 1 1 1%float; constant 1 3 3 1%float].

(** A batch of two inputs, of one and of two channels, for a 1x1 kernel
    of one channel (at location 1). *)
Definition store_batch : heap :=
  [constant 1 1 1 3%float; constant 1 1 1 2%float; constant 2 1 1 3%float].

(** What can be seen of an outcome without looking into the tensors: the
    status, the shapes of the tensors in the store, and [outputs]. *)
Definition shapes_of (o : outcome) : option (InferStatus * list (Z * Z * Z) * list ptr) :=
  match o with
  | Finished s h outputs => Some (s, shape <$> h, outputs)
  | Aborted _ => None
  end.

(** A second call, on the store the first one leaves. *)
Definition and_then (o : outcome) (call : heap -> outcome) : outcome :=
  match o with
  | Finished _ h _ => call h
  | Aborted f => Aborted f
  end.

(** A layer with padding 1. *)
Definition layer_padding_1 : ConvolutionLayer := mkConv 1 1 false [Some 1%nat] [].

(** ** Definitions for the further properties *)

(** An outcome with [outputs] put in front of what the call appended. *)
Definition prepend (outputs : list ptr) (o : outcome) : outcome :=
  match o with
  | Finished s h new => Finished s h (outputs ++ new)
  | Aborted f => Aborted f
  end.

(** A call that succeeded is followed by the next one, on the store and
    the outputs it leaves; any other outcome stands. *)
Definition continue_with (o : outcome) (call : heap -> list ptr -> outcome) : outcome :=
  match o with
  | Finished kInferSuccess h outputs => call h outputs
  | _ => o
  end.

(** A layer with a stride of zero. *)
Definition layer_stride_0 : ConvolutionLayer := mkConv 0 0 false [Some 1%nat] [].

(** A layer that asks for a bias and has none. *)
Definition layer_bias_missing : ConvolutionLayer := mkConv 0 1 true [Some 1%nat] [].

(** The layer with other bias pointers. *)
Definition with_bias (L : ConvolutionLayer) (bs : list ptr) : ConvolutionLayer :=
  mkConv (padding_ L) (stride_ L) (use_bias_ L) (weights_ L) bs.

(** Every tensor of [h] is still there in [h'], with its channel count. *)
Definition same_channels (h h' : heap) : Prop :=
  forall l t, h !! l = Some t ->
    exists t', h' !! l = Some t' /\ n_channels t' = n_channels t.

(** The pointers the constructor has made so far are distinct, not null,
    and lead past the end of the store [h0] it started from. *)
Definition ctor_fresh (h0 : heap) (acc : heap * list ptr * list ptr) : Prop :=
  let '(h, ws, bs) := acc in
  (length h0 <= length h)%nat /\
  NoDup (ws ++ bs) /\
  forall q, q ∈ ws ++ bs -> exists l, q = Some l /\ (length h0 <= l < length h)%nat.

(** The six parameters are there, each of its variant, with the values
    of [p]. *)
Definition params_read (ps : gmap string RuntimeParameter) (p : conv_params) : Prop :=
  ps !! "in_channels" = Some (RuntimeParameterInt (p_in_channel p)) /\
  ps !! "out_channels" = Some (RuntimeParameterInt (p_out_channel p)) /\
  ps !! "padding" = Some (RuntimeParameterIntArray (p_padding p)) /\
  ps !! "bias" = Some (RuntimeParameterBool (p_use_bias p)) /\
  ps !! "stride" = Some (RuntimeParameterIntArray (p_stride p)) /\
  ps !! "kernel_size" = Some (RuntimeParameterIntArray (p_kernel p)).

(** Every tensor of [h] is still there in [h'], with its shape. *)
Definition same_shapes (h h' : heap) : Prop :=
  forall l t, h !! l = Some t -> exists t', h' !! l = Some t' /\ shape t' = shape t.

(** The "weight" attribute is absent or its shape is empty. *)
Definition weight_attribute_bad (attrs : gmap string RuntimeAttribute) : Prop :=
  match attrs !! "weight" with
  | None => True
  | Some w => attr_shape w = []
  end.

(** The pointer [q] leads, in store [h], to an input of [C] channels that
    a kernel of [kernel_h] by [kernel_w] fits into once padded by
    [padding], with sizes clear of the 32-bit limits and within the loop
    budget. *)
Definition input_fits (fuel : nat) (padding stride C kernel_h kernel_w : Z)
    (h : heap) (q : ptr) : Prop :=
  exists l t,
    q = Some l /\ h !! l = Some t /\ n_channels t = C /\
    kernel_h <= n_rows t + 2 * padding /\ kernel_w <= n_cols t + 2 * padding /\
    n_rows t + 2 * padding + stride <= 2 ^ 31 /\
    n_cols t + 2 * padding + stride <= 2 ^ 31 /\
    n_rows t + 2 * padding <= Z.of_nat fuel /\
    n_cols t + 2 * padding <= Z.of_nat fuel.

(** * Proofs *)

(** ** The constructor *)

Section Constructor.

Variables (in_channel kernel_h kernel_w : Z) (use_bias : bool).

Local Abbreviation stepc := (ctor_step in_channel kernel_h kernel_w use_bias).
Local Abbreviation inv := (ctor_inv in_channel kernel_h kernel_w use_bias).

Lemma holds_shape_app h ext sh p :
  holds_shape h sh p -> holds_shape (h ++ ext) sh p.
Proof.
  intros (l & t & -> & Hl & Hs). exists l, t. split; [done|]. split; [|done].
  by apply lookup_app_l_Some.
Qed.

Lemma holds_shape_fresh h t sh :
  shape t = sh -> holds_shape (h ++ [t]) sh (Some (length h)).
Proof.
  intros Hs. exists (length h), t. split; [done|]. split; [|done].
  by rewrite list_lookup_middle.
Qed.

Lemma ctor_step_inv h0 n acc :
  inv h0 n acc -> inv h0 (S n) (stepc acc).
Proof.
  destruct acc as [[h ws] bs]. unfold ctor_step, ctor_inv, make_shared.
  intros ([ext ->] & Hlen & Hws & Hbs).
  destruct use_bias.
  - destruct Hbs as [Hlb Hbs]. repeat split.
    + exists (ext ++ [Tensor_new in_channel kernel_h kernel_w; Tensor_new 1 1 1]).
      by rewrite <- !app_assoc.
    + rewrite length_app. cbn. lia.
    + apply Forall_app. split.
      * eapply Forall_impl; [exact Hws|]. intros p Hp.
        by do 2 apply holds_shape_app.
      * constructor; [|constructor]. apply holds_shape_app.
        by apply holds_shape_fresh.
    + rewrite length_app. cbn. lia.
    + apply Forall_app. split.
      * eapply Forall_impl; [exact Hbs|]. intros p Hp.
        by do 2 apply holds_shape_app.
      * constructor; [|constructor]. by apply holds_shape_fresh.
  - repeat split; try done.
    + exists (ext ++ [Tensor_new in_channel kernel_h kernel_w]).
      by rewrite <- !app_assoc.
    + rewrite length_app. cbn. lia.
    + apply Forall_app. split.
      * eapply Forall_impl; [exact Hws|]. intros p Hp. by apply holds_shape_app.
      * constructor; [|constructor]. by apply holds_shape_fresh.
Qed.

Lemma ctor_iter_inv h0 n :
  inv h0 n (Nat.iter n stepc (h0, [], [])).
Proof.
  induction n as [|n IH].
  - cbn. repeat split; try done.
    + exists []. by rewrite app_nil_r.
    + destruct use_bias; [split|]; done.
  - cbn [Nat.iter]. by apply ctor_step_inv.
Qed.

End Constructor.

(** ** The statuses a computation can leave with *)

Lemma returns_in_bind {R A B} (P : R -> Prop) (m : step R A) (k : A -> step R B) :
  returns_in P m -> (forall a, returns_in P (k a)) -> returns_in P (m ≫= k).
Proof.
  intros Hm Hk st. destruct m as [a|s|f]; cbn.
  - apply Hk.
  - intros [= ->]. by apply Hm.
  - done.
Qed.

Lemma returns_in_next {R A} (P : R -> Prop) (a : A) : returns_in P (Next a).
Proof. by intros st. Qed.

Lemma returns_in_crash {R A} (P : R -> Prop) f : returns_in P (@Crash R A f).
Proof. by intros st. Qed.

Lemma returns_in_guard {R} (P : R -> Prop) b f : returns_in P (guard b f).
Proof. intros st. by destruct b. Qed.

Lemma returns_in_of_option {R A} (P : R -> Prop) (o : option A) f :
  returns_in P (of_option o f).
Proof. intros st. by destruct o. Qed.

Lemma returns_in_deref {R} (P : R -> Prop) h p : returns_in P (deref h p).
Proof. destruct p; [apply returns_in_of_option | apply returns_in_crash]. Qed.

Lemma returns_in_for_each {R S} (P : R -> Prop) idx (body : Z -> S -> step R S) :
  (forall i s, returns_in P (body i s)) ->
  forall s, returns_in P (for_each idx body s).
Proof.
  intros Hb. induction idx as [|i rest IH]; intros s; cbn.
  - apply returns_in_next.
  - apply returns_in_bind; [apply Hb | apply IH].
Qed.

Lemma returns_in_for_stride {R S} (P : R -> Prop) bound stride
    (body : Z -> S -> step R S) :
  (forall i s, returns_in P (body i s)) ->
  forall fuel r s, returns_in P (for_stride fuel r bound stride body s).
Proof.
  intros Hb. induction fuel as [|fuel IH]; intros r s; cbn.
  - destruct (r <? bound); [apply returns_in_crash | apply returns_in_next].
  - destruct (r <? bound); [|apply returns_in_next].
    apply returns_in_bind; [apply Hb | intros a; apply IH].
Qed.

Ltac returns_in_prim :=
  repeat first
    [ apply returns_in_next | apply returns_in_crash | apply returns_in_guard
    | apply returns_in_of_option | apply returns_in_deref
    | apply returns_in_bind; [|intros ?] ].

Lemma returns_in_plane P t ch : returns_in P (plane t ch).
Proof. unfold plane. returns_in_prim. Qed.

Lemma returns_in_submat P m r1 c1 r2 c2 : returns_in P (submat m r1 c1 r2 c2).
Proof. unfold submat. returns_in_prim. Qed.

Lemma returns_in_schur P a b : returns_in P (schur a b).
Proof. unfold schur. returns_in_prim. Qed.

Lemma returns_in_add_at P m i j v : returns_in P (add_at m i j v).
Proof. unfold add_at. returns_in_prim. Qed.

Lemma returns_in_mat_add P a b : returns_in P (mat_add a b).
Proof. unfold mat_add. returns_in_prim. Qed.

Lemma returns_in_front P t : returns_in P (front t).
Proof. unfold front. returns_in_prim. Qed.

Lemma returns_in_slide P fuel stride ih iw kh kw ic kc oc :
  returns_in P (slide fuel stride ih iw kh kw ic kc oc).
Proof.
  unfold slide. apply returns_in_for_stride. intros r out.
  apply returns_in_for_stride. intros c out'.
  apply returns_in_bind; [apply returns_in_submat | intros region].
  apply returns_in_bind; [apply returns_in_schur | intros prod].
  apply returns_in_add_at.
Qed.

Lemma returns_in_convolve P fuel L h input kernel oh ow k out :
  returns_in P (convolve fuel L h input kernel oh ow k out).
Proof.
  unfold convolve.
  apply returns_in_bind; [apply returns_in_plane | intros oc].
  apply returns_in_bind.
  { apply returns_in_for_each. intros ic oc'.
    apply returns_in_bind; [apply returns_in_plane | intros ich].
    apply returns_in_bind; [apply returns_in_plane | intros kch].
    apply returns_in_slide. }
  intros oc'. apply returns_in_bind.
  { case_match; [apply returns_in_of_option | apply returns_in_next]. }
  intros bias. apply returns_in_bind; [|intros ?; apply returns_in_next].
  destruct bias; [|apply returns_in_next].
  apply returns_in_bind; [apply returns_in_deref | intros b].
  apply returns_in_bind; [apply returns_in_front | intros v].
  apply returns_in_mat_add.
Qed.

Lemma returns_in_forward_kernel fuel L h input kc k od :
  returns_in kernel_failure (forward_kernel fuel L h input kc k od).
Proof.
  unfold forward_kernel.
  apply returns_in_bind; [apply returns_in_of_option | intros kp].
  apply returns_in_bind; [apply returns_in_deref | intros kernel].
  apply returns_in_bind; [apply returns_in_guard | intros _].
  case_match; [intros st [= <-]; by left|].
  case_match; [intros st [= <-]; by right|].
  intros st Hst. exfalso. revert Hst.
  apply (returns_in_convolve (fun _ => False)).
Qed.

(** ** What a call does to the store and to [outputs] *)

Lemma padded_store_length L h l t : length (padded_store L h l t) = length h.
Proof. unfold padded_store. case_match; [apply length_insert | done]. Qed.

Lemma padded_store_other L h l t l' :
  l' <> l -> padded_store L h l t !! l' = h !! l'.
Proof.
  intros Hne. unfold padded_store. case_match; [|done].
  by apply list_lookup_insert_ne.
Qed.

Lemma padded_store_no_padding L h l t :
  padding_ L <= 0 -> padded_store L h l t = h.
Proof. intros Hp. unfold padded_store. case_match; [lia | done]. Qed.

Lemma forward_item_store fuel L h input h1 :
  item_store (forward_item fuel L h input) = Some h1 ->
  exists l t, input = Some l /\ h !! l = Some t /\ h1 = padded_store L h l t.
Proof.
  unfold forward_item. destruct input as [l|]; [|done].
  destruct (h !! l) as [t|] eqn:Hl; [|done].
  destruct (padded_store L h l t !! l) as [t'|]; [|done].
  destruct (for_count _ _ _) as [[out|]|s|f]; cbn; try done.
  - destruct (tensor_empty out); cbn; [done|]. intros [= <-]. eauto.
  - intros [= <-]. eauto.
Qed.

Lemma forward_item_return fuel L h input s h1 :
  forward_item fuel L h input = ItemReturn s h1 -> kernel_failure s.
Proof.
  unfold forward_item. destruct input as [l|]; [|done].
  destruct (h !! l) as [t|]; [|done].
  destruct (_ !! l) as [t'|]; [|done].
  destruct (for_count _ _ _) as [[out|]|s'|f] eqn:Hk; try done.
  - by destruct (tensor_empty out).
  - intros [= -> _]. revert Hk. apply returns_in_for_each.
    intros i od. apply returns_in_forward_kernel.
Qed.

(** A call only appends to [outputs]; it writes to the store at its
    inputs and past the end, nowhere else. *)
Lemma forward_batch_frame fuel L inputs idx : forall h outputs s h' outputs',
  forward_batch fuel L inputs idx h outputs = Finished s h' outputs' ->
  (exists new, outputs' = outputs ++ new /\ (length new <= length idx)%nat /\
               (s = kInferSuccess -> length new = length idx)) /\
  (length h <= length h')%nat /\
  (forall l, (l < length h)%nat -> Some l ∉ inputs -> h' !! l = h !! l) /\
  (padding_ L <= 0 -> forall l, (l < length h)%nat -> h' !! l = h !! l).
Proof.
  induction idx as [|i rest IH]; intros h outputs s h' outputs'; cbn.
  - intros [= <- <- <-]. split; [|done]. exists []. by rewrite app_nil_r.
  - destruct (inputs !! Z.to_nat i) as [input|] eqn:Hi; [|done].
    destruct (forward_item fuel L h input) as [h1 out|s1 h1|f] eqn:Hitem; [| |done].
    + destruct (forward_item_store fuel L h input h1) as (l & t & -> & Hl & ->).
      { by rewrite Hitem. }
      intros Hrest. apply IH in Hrest as ((new & -> & Hlen & Hok) & Hh & Hfr & Hnp).
      rewrite length_app, padded_store_length in Hh, Hfr, Hnp. cbn in Hh, Hfr, Hnp.
      repeat split.
      * exists (Some (length (padded_store L h l t)) :: new).
        rewrite <- app_assoc. cbn. split; [done|]. split; [lia|].
        intros Hs. by rewrite Hok.
      * lia.
      * intros l' Hl' Hnot. rewrite Hfr by (done || lia).
        rewrite lookup_app_l by (rewrite padded_store_length; lia).
        apply padded_store_other. intros ->. apply Hnot.
        by eapply list_elem_of_lookup_2.
      * intros Hp l' Hl'. rewrite Hnp by (done || lia).
        rewrite lookup_app_l by (rewrite padded_store_length; lia).
        by rewrite padded_store_no_padding.
    + destruct (forward_item_store fuel L h input h1) as (l & t & -> & Hl & ->).
      { by rewrite Hitem. }
      apply forward_item_return in Hitem.
      intros [= <- <- <-]. repeat split.
      * exists []. rewrite app_nil_r. split; [done|]. split; [cbn; lia|].
        intros ->. by destruct Hitem.
      * by rewrite padded_store_length.
      * intros l' Hl' Hnot. apply padded_store_other. intros ->. apply Hnot.
        by eapply list_elem_of_lookup_2.
      * intros Hp l' Hl'. by rewrite padded_store_no_padding.
Qed.

(** ** Loops that run to their end *)

Lemma for_each_inv {R S} (I : S -> Prop) idx (body : Z -> S -> step R S) s :
  I s ->
  (forall i s, i ∈ idx -> I s -> exists s', body i s = Next s' /\ I s') ->
  exists s', for_each idx body s = Next s' /\ I s'.
Proof.
  revert s. induction idx as [|i rest IH]; intros s Hs Hb; cbn.
  - eauto.
  - destruct (Hb i s) as (s1 & -> & Hs1); [left | done |]. cbn.
    apply IH; [done|]. intros j s2 Hj. apply Hb. by right.
Qed.

(** A first turn establishes [I], the later ones keep it. *)
Lemma for_each_inv_first {R S} (I0 I : S -> Prop) idx (body : Z -> S -> step R S) s :
  idx <> [] -> I0 s ->
  (forall i s, i ∈ idx -> I0 s \/ I s -> exists s', body i s = Next s' /\ I s') ->
  exists s', for_each idx body s = Next s' /\ I s'.
Proof.
  destruct idx as [|i rest]; [done|]. intros _ Hs Hb. cbn.
  destruct (Hb i s) as (s1 & -> & Hs1); [left | by left |]. cbn.
  apply for_each_inv; [done|]. intros j s2 Hj Hs2. apply Hb; [by right | by right].
Qed.

Lemma for_stride_inv {R S} (I : S -> Prop) bound stride (body : Z -> S -> step R S) :
  0 < stride -> bound + stride <= U32.modulus ->
  (forall r s, 0 <= r < bound -> I s -> exists s', body r s = Next s' /\ I s') ->
  forall fuel r s,
    0 <= r -> bound - r <= Z.of_nat fuel -> I s ->
    exists s', for_stride fuel r bound stride body s = Next s' /\ I s'.
Proof.
  intros Hst Hb Hbody. induction fuel as [|fuel IH]; intros r s Hr Hf Hs; cbn.
  - destruct (Z.ltb_spec r bound); [lia | eauto].
  - destruct (Z.ltb_spec r bound); [|eauto].
    destruct (Hbody r s) as (s1 & -> & Hs1); [lia | done |]. cbn.
    assert (U32.add r stride = r + stride) as ->.
    { unfold U32.add, U32.wrap. apply Z.mod_small. lia. }
    apply IH; [lia | lia | done].
Qed.

(** ** The window loops on a plane the kernel fits into *)

Lemma wrap_small z : 0 <= z < U32.modulus -> U32.wrap z = z.
Proof. intros Hz. unfold U32.wrap. by apply Z.mod_small. Qed.

Lemma to_int_small z : 0 <= z < 2 ^ 31 -> U32.to_int z = z.
Proof. intros Hz. unfold U32.to_int. destruct (Z.ltb_spec z (2 ^ 31)); lia. Qed.

Lemma modulus_eq : U32.modulus = 4294967296.
Proof. reflexivity. Qed.

Lemma div_window r n stride :
  1 <= stride -> 0 <= r <= n -> 0 <= r / stride < n / stride + 1.
Proof.
  intros Hs Hr. split.
  - apply Z.div_pos; lia.
  - assert (r / stride <= n / stride) by (apply Z.div_le_mono; lia). lia.
Qed.

Lemma div_below r stride : 1 <= stride -> 0 <= r -> r / stride <= r.
Proof.
  intros Hs Hr. destruct (Z.eq_dec r 0) as [->|Hne].
  - by rewrite Z.div_0_l by lia.
  - destruct (Z.eq_dec stride 1) as [->|Hs1]; [by rewrite Z.div_1_r|].
    assert (r / stride < r) by (apply Z.div_lt; lia). lia.
Qed.

Lemma slide_ok fuel stride H W kernel_h kernel_w ich kch oc :
  1 <= stride -> 1 <= kernel_h <= H -> 1 <= kernel_w <= W ->
  H + stride <= 2 ^ 31 -> W + stride <= 2 ^ 31 ->
  H <= Z.of_nat fuel -> W <= Z.of_nat fuel ->
  m_rows ich = H -> m_cols ich = W ->
  m_rows kch = kernel_h -> m_cols kch = kernel_w ->
  m_rows oc = (H - kernel_h) / stride + 1 ->
  m_cols oc = (W - kernel_w) / stride + 1 ->
  exists oc', slide fuel stride H W kernel_h kernel_w ich kch oc = Next oc' /\
              m_rows oc' = m_rows oc /\ m_cols oc' = m_cols oc.
Proof.
  intros Hs Hkh Hkw HH HW HfH HfW Hir Hic Hkr Hkc Hor Hoc.
  pose proof modulus_eq as Hm.
  unfold slide, U32.add, U32.sub.
  rewrite (wrap_small (H - kernel_h)), (wrap_small (W - kernel_w)) by lia.
  rewrite (wrap_small (H - kernel_h + 1)), (wrap_small (W - kernel_w + 1)) by lia.
  apply (for_stride_inv (fun o => m_rows o = m_rows oc /\ m_cols o = m_cols oc));
    [lia | lia | | lia | lia | done].
  intros r out Hr Hout.
  apply (for_stride_inv (fun o => m_rows o = m_rows oc /\ m_cols o = m_cols oc));
    [lia | lia | | lia | lia | done].
  intros c out' Hc [Hr' Hc'].
  rewrite (wrap_small (r + kernel_h)), (wrap_small (c + kernel_w)) by lia.
  rewrite (wrap_small (r + kernel_h - 1)), (wrap_small (c + kernel_w - 1)) by lia.
  unfold submat.
  replace (_ && _ && _ && _) with true; cycle 1.
  { symmetry. rewrite !andb_true_iff, !Z.leb_le, !Z.ltb_lt. lia. }
  cbn. unfold schur; cbn.
  replace (_ && _) with true; cycle 1.
  { symmetry. rewrite andb_true_iff, !Z.eqb_eq. lia. }
  cbn. unfold add_at, U32.div.
  pose proof (div_window r (H - kernel_h) stride Hs ltac:(lia)).
  pose proof (div_window c (W - kernel_w) stride Hs ltac:(lia)).
  pose proof (div_below r stride Hs ltac:(lia)).
  pose proof (div_below c stride Hs ltac:(lia)).
  rewrite !to_int_small by lia.
  replace (_ && _ && _ && _) with true; cycle 1.
  { symmetry. rewrite !andb_true_iff, !Z.leb_le, !Z.ltb_lt. lia. }
  cbn. eauto.
Qed.

(** ** One kernel, one item *)

Lemma layer_ok_frame L h h' C kernel_h kernel_w :
  (forall l t, Some l ∈ weights_ L \/ Some l ∈ bias_ L ->
               h !! l = Some t -> h' !! l = Some t) ->
  layer_ok L h C kernel_h kernel_w -> layer_ok L h' C kernel_h kernel_w.
Proof.
  intros Hfr [? ? ? ? ? ? ? Hsh Hb]. split; try done.
  - apply Forall_forall. intros p Hp.
    rewrite Forall_forall in Hsh. destruct (Hsh p Hp) as (l & t & -> & Hl & Ht).
    exists l, t. split; [done|]. split; [|done]. apply Hfr; [by left | done].
  - intros Hu. destruct (Hb Hu) as [Hlen Hall]. split; [done|].
    apply Forall_forall. intros p Hp.
    rewrite Forall_forall in Hall. destruct (Hall p Hp) as (l & b & -> & Hl & Hne).
    exists l, b. split; [done|]. split; [|done]. apply Hfr; [by right | done].
Qed.

Lemma plane_ok t ch :
  0 <= ch < n_channels t ->
  plane t ch = Next (mkMat (n_rows t) (n_cols t) (cell t ch)).
Proof.
  intros Hch. unfold plane.
  replace ((0 <=? ch) && (ch <? n_channels t)) with true; [done|].
  symmetry. rewrite andb_true_iff, Z.leb_le, Z.ltb_lt. lia.
Qed.

Lemma forward_kernel_ok fuel L h input k od C kernel_h kernel_w :
  let kernel_count := Z.of_nat (length (weights_ L)) in
  let oh := (n_rows input - kernel_h) / stride_ L + 1 in
  let ow := (n_cols input - kernel_w) / stride_ L + 1 in
  layer_ok L h C kernel_h kernel_w ->
  0 <= k < kernel_count ->
  n_channels input = C ->
  kernel_h <= n_rows input -> kernel_w <= n_cols input ->
  n_rows input + stride_ L <= 2 ^ 31 -> n_cols input + stride_ L <= 2 ^ 31 ->
  n_rows input <= Z.of_nat fuel -> n_cols input <= Z.of_nat fuel ->
  od = None \/ (exists out, od = Some out /\ shape out = (kernel_count, oh, ow)) ->
  exists out', forward_kernel fuel L h input kernel_count k od = Next (Some out') /\
               shape out' = (kernel_count, oh, ow).
Proof.
  intros kernel_count oh ow [Hp Hs Hkh Hkw HC Hne Hcount Hsh Hb] Hk Hch HH HW
    HHm HWm HfH HfW Hod.
  pose proof modulus_eq as Hm.
  unfold forward_kernel, convolve.
  destruct (lookup_lt_is_Some_2 (weights_ L) (Z.to_nat k)) as [kp Hkp];
    [subst kernel_count; lia|].
  rewrite Hkp. cbn.
  rewrite Forall_forall in Hsh.
  destruct (Hsh kp) as (lk & kernel & -> & Hlk & Hshape).
  { by eapply list_elem_of_lookup_2. }
  injection Hshape as Hkc Hkr Hkcl.
  unfold deref. rewrite Hlk. cbn.
  replace (stride_ L =? 0) with false by (symmetry; apply Z.eqb_neq; lia). cbn.
  unfold computed_output, rows, cols, channels, U32.add, U32.sub, U32.div.
  rewrite Hkc, Hkr, Hkcl, Hch.
  rewrite (wrap_small (n_rows input)), (wrap_small (n_cols input)) by lia.
  rewrite (wrap_small kernel_h), (wrap_small kernel_w), (wrap_small C) by lia.
  rewrite (wrap_small (n_rows input - kernel_h)) by lia.
  rewrite (wrap_small (n_cols input - kernel_w)) by lia.
  pose proof (div_window 0 (n_rows input - kernel_h) (stride_ L) Hs ltac:(lia)) as Hoh.
  pose proof (div_window 0 (n_cols input - kernel_w) (stride_ L) Hs ltac:(lia)) as How.
  pose proof (div_below (n_rows input - kernel_h) (stride_ L) Hs ltac:(lia)).
  pose proof (div_below (n_cols input - kernel_w) (stride_ L) Hs ltac:(lia)).
  rewrite Z.div_0_l in Hoh, How by lia.
  fold oh ow in Hoh, How |- *.
  rewrite (wrap_small oh), (wrap_small ow) by (subst oh ow; lia).
  replace ((oh <=? 0) || (ow <=? 0)) with false; cycle 1.
  { symmetry. rewrite orb_false_iff, !Z.leb_gt. lia. }
  rewrite Z.eqb_refl. cbn [negb].
  set (out := match od with Some t => t | None => Tensor_new kernel_count oh ow end).
  assert (shape out = (kernel_count, oh, ow)) as Hout.
  { subst out. destruct Hod as [->|(o & -> & Ho)]; done. }
  injection Hout as Hoc Hor Hocl.
  rewrite (plane_ok out k) by lia. cbn.
  set (oc0 := mkMat (n_rows out) (n_cols out) (cell out k)).
  destruct (for_each_inv (R:=InferStatus)
              (fun o => m_rows o = oh /\ m_cols o = ow) (seqZ 0 C)
              (fun ic oc =>
                 input_channel ← plane input ic;
                 kernel_channel ← plane kernel ic;
                 slide fuel (stride_ L) (n_rows input) (n_cols input)
                       kernel_h kernel_w input_channel kernel_channel oc) oc0)
    as (oc1 & Hloop & Hr1 & Hc1).
  { done. }
  { intros ic oc Hic [Hr Hc]. apply elem_of_seqZ in Hic.
    rewrite (plane_ok input ic), (plane_ok kernel ic) by lia. cbn.
    destruct (slide_ok fuel (stride_ L) (n_rows input) (n_cols input)
                kernel_h kernel_w
                (mkMat (n_rows input) (n_cols input) (cell input ic))
                (mkMat (n_rows kernel) (n_cols kernel) (cell kernel ic)) oc)
      as (oc' & -> & Hr' & Hc'); try done; try lia.
    exists oc'. split; [done|]. split; congruence. }
  unfold for_count. rewrite Hloop. cbn.
  destruct (use_bias_ L) eqn:Hu; cycle 1.
  { rewrite andb_false_r. cbn.
    eexists. split; [done|]. unfold shape. cbn. by rewrite Hoc, Hor, Hocl. }
  destruct (Hb eq_refl) as [Hlen Hall].
  destruct (lookup_lt_is_Some_2 (bias_ L) (Z.to_nat k)) as [bp Hbp];
    [rewrite Hlen; subst kernel_count; lia|].
  rewrite bool_decide_eq_false_2; cycle 1.
  { intros Hnil. rewrite Hnil in Hbp. done. }
  cbn. rewrite Hbp. cbn.
  rewrite Forall_forall in Hall.
  destruct (Hall bp) as (lb & b & -> & Hlb & Hbe).
  { by eapply list_elem_of_lookup_2. }
  cbn. rewrite Hlb. cbn. unfold front. rewrite Hbe. cbn.
  unfold mat_add. cbn. rewrite Hr1, Hc1, !Z.eqb_refl. cbn.
  eexists. split; [done|]. unfold shape. cbn. by rewrite Hoc, Hor, Hocl.
Qed.

Lemma padded_store_at L h l t :
  h !! l = Some t -> 0 <= padding_ L ->
  exists t', padded_store L h l t !! l = Some t' /\
             n_channels t' = n_channels t /\
             n_rows t' = n_rows t + 2 * padding_ L /\
             n_cols t' = n_cols t + 2 * padding_ L.
Proof.
  intros Hl Hp. unfold padded_store. destruct (Z.ltb_spec 0 (padding_ L)).
  - eexists. split.
    + apply list_lookup_insert_eq. by eapply lookup_lt_Some.
    + cbn. lia.
  - exists t. split; [done|]. lia.
Qed.

Lemma layer_ok_padded fuel L h C kernel_h kernel_w l t :
  item_ok fuel L h C kernel_h kernel_w l t ->
  layer_ok L h C kernel_h kernel_w ->
  layer_ok L (padded_store L h l t) C kernel_h kernel_w.
Proof.
  intros Hi. apply layer_ok_frame. intros l' t' Hl' <-.
  destruct (io_apart _ _ _ _ _ _ _ _ Hi) as [Hp|[Hw Hb]].
  - by rewrite padded_store_no_padding.
  - apply padded_store_other. intros ->. tauto.
Qed.

Lemma forward_item_ok fuel L h C kernel_h kernel_w l t :
  layer_ok L h C kernel_h kernel_w ->
  item_ok fuel L h C kernel_h kernel_w l t ->
  exists out,
    forward_item fuel L h (Some l) = ItemDone (padded_store L h l t) out /\
    shape out = (Z.of_nat (length (weights_ L)),
                 output_size L (n_rows t) kernel_h,
                 output_size L (n_cols t) kernel_w).
Proof.
  intros HL Hi. pose proof (layer_ok_padded _ _ _ _ _ _ _ _ Hi HL) as HL1.
  destruct Hi as [Hl Hch Hr Hc Hrm Hcm Hfr Hfc Hap].
  pose proof HL as [Hp Hs Hkh Hkw HC Hne Hcount Hsh Hb].
  pose proof modulus_eq as Hm.
  unfold forward_item. rewrite Hl.
  destruct (padded_store_at L h l t Hl Hp) as (t' & -> & Hc' & Hr' & Hcl').
  rewrite wrap_small by lia.
  set (kc := Z.of_nat (length (weights_ L))) in *.
  destruct (for_each_inv_first (R:=InferStatus)
              (fun od => od = None)
              (fun od => exists out, od = Some out /\
                 shape out = (kc, (n_rows t' - kernel_h) / stride_ L + 1,
                                  (n_cols t' - kernel_w) / stride_ L + 1))
              (seqZ 0 kc)
              (forward_kernel fuel L (padded_store L h l t) t' kc) None)
    as (od & Hloop & out & -> & Hout).
  { destruct (weights_ L) eqn:Hw; [done|]. subst kc. cbn [length].
    rewrite Nat2Z.inj_succ, seqZ_cons by lia. done. }
  { done. }
  { intros k od Hk Hod. apply elem_of_seqZ in Hk.
    destruct (forward_kernel_ok fuel L (padded_store L h l t) t' k od
                C kernel_h kernel_w) as (out' & Hk' & Hs');
      try done; try lia.
    fold kc in Hk', Hs'. rewrite Hk'. eauto. }
  unfold for_count. rewrite Hloop.
  injection Hout as Ho1 Ho2 Ho3.
  pose proof (div_window 0 (n_rows t' - kernel_h) (stride_ L) Hs ltac:(lia)) as Hoh.
  pose proof (div_window 0 (n_cols t' - kernel_w) (stride_ L) Hs ltac:(lia)) as How.
  rewrite Z.div_0_l in Hoh, How by lia.
  assert (0 < kc) by (subst kc; destruct (weights_ L); [done | cbn; lia]).
  unfold tensor_empty. rewrite Ho1, Ho2, Ho3.
  replace (_ =? 0) with false by (symmetry; apply Z.eqb_neq; nia).
  exists out. split; [done|]. unfold shape, output_size.
  rewrite Ho1, Ho2, Ho3, Hr', Hcl'. done.
Qed.

(** ** The batch *)

Lemma forward_batch_list fuel L inputs : forall n k h outputs,
  (k + n <= length inputs)%nat ->
  forward_batch fuel L inputs (seqZ (Z.of_nat k) (Z.of_nat n)) h outputs =
  forward_list fuel L (take n (drop k inputs)) h outputs.
Proof.
  induction n as [|n IH]; intros k h outputs Hk.
  - done.
  - rewrite Nat2Z.inj_succ, seqZ_cons by lia.
    destruct (lookup_lt_is_Some_2 inputs k) as [input Hin]; [lia|].
    rewrite (drop_S _ _ _ Hin). cbn. rewrite Nat2Z.id, Hin.
    destruct (forward_item fuel L h input); try done.
    replace (Z.succ (Z.of_nat k)) with (Z.of_nat (S k)) by lia.
    replace (Z.pred (Z.succ (Z.of_nat n))) with (Z.of_nat n) by lia.
    apply IH. lia.
Qed.

Lemma Forward_list fuel L h inputs outputs :
  inputs <> [] -> weights_ L <> [] ->
  (use_bias_ L = true -> length (bias_ L) = length (weights_ L)) ->
  Z.of_nat (length inputs) < U32.modulus ->
  Forward fuel L h inputs outputs = forward_list fuel L inputs h outputs.
Proof.
  intros Hi Hw Hb Hn. unfold Forward.
  rewrite !bool_decide_eq_false_2 by done.
  replace (use_bias_ L && _) with false; cycle 1.
  { symmetry. destruct (use_bias_ L); [|done].
    rewrite (Hb eq_refl), Nat.eqb_refl. done. }
  rewrite wrap_small by lia.
  rewrite (forward_batch_list fuel L inputs (length inputs) 0) by lia.
  by rewrite drop_0, firstn_all.
Qed.

Lemma item_ok_frame fuel L h h' C kernel_h kernel_w l t :
  h' !! l = h !! l ->
  item_ok fuel L h C kernel_h kernel_w l t ->
  item_ok fuel L h' C kernel_h kernel_w l t.
Proof. intros Heq [Hl ? ? ? ? ? ? ? ?]. split; try done. by rewrite Heq. Qed.

Lemma sized_for_frame L kernel_h kernel_w h0 h h' p q :
  (forall l, p = Some l -> h !! l = h0 !! l) ->
  sized_for L kernel_h kernel_w h h' p q ->
  sized_for L kernel_h kernel_w h0 h' p q.
Proof.
  intros Heq (l & t & lo & o & -> & Hl & -> & Hlo & Hsz).
  exists l, t, lo, o. rewrite <- (Heq l) by done. done.
Qed.

Lemma Forall2_impl_elem {A B} (P Q : A -> B -> Prop) l k :
  Forall2 P l k -> (forall x y, x ∈ l -> P x y -> Q x y) -> Forall2 Q l k.
Proof.
  induction 1 as [|x y l k Hxy Hlk IH]; intros Himp; constructor.
  - apply Himp; [left | done].
  - apply IH. intros x' y' Hx'. apply Himp. by right.
Qed.

Lemma forward_list_ok fuel L C kernel_h kernel_w : forall inputs h outputs,
  layer_ok L h C kernel_h kernel_w ->
  Forall (input_ok fuel L h C kernel_h kernel_w) inputs ->
  padding_ L <= 0 \/ NoDup inputs ->
  exists h' new,
    forward_list fuel L inputs h outputs =
      Finished kInferSuccess h' (outputs ++ new) /\
    Forall2 (sized_for L kernel_h kernel_w h h') inputs new /\
    (length h <= length h')%nat /\
    (forall l, (l < length h)%nat -> Some l ∉ inputs -> h' !! l = h !! l) /\
    (0 < padding_ L -> forall l t, Some l ∈ inputs -> h !! l = Some t ->
       h' !! l = Some (Padding t (padding_ L) (padding_ L) (padding_ L)
                               (padding_ L) 0%float)).
Proof.
  induction inputs as [|input rest IH]; intros h outputs HL Hins Hdis.
  - exists h, []. cbn. rewrite app_nil_r. repeat split; try done.
    intros _ l t Hin. by apply elem_of_nil in Hin.
  - apply Forall_cons in Hins as [(l & t & -> & Hi) Hrest].
    assert (padding_ L <= 0 \/ (Some l ∉ rest)) as Hhead.
    { destruct Hdis as [?|Hnd]; [by left | right]. by apply NoDup_cons in Hnd as [? ?]. }
    assert (padding_ L <= 0 \/ NoDup rest) as Hdis'.
    { destruct Hdis as [?|Hnd]; [by left | right]. by apply NoDup_cons in Hnd as [? ?]. }
    destruct (forward_item_ok fuel L h C kernel_h kernel_w l t HL Hi)
      as (out & Hitem & Hout).
    cbn [forward_list]. rewrite Hitem. unfold make_shared.
    set (h1 := padded_store L h l t).
    assert (length h1 = length h) as Hlen1 by apply padded_store_length.
    assert (forall l', Some l' ∈ rest -> h1 !! l' = h !! l' /\ (l' < length h)%nat)
      as Hkeep.
    { intros l' Hl'. rewrite Forall_forall in Hrest.
      destruct (Hrest _ Hl') as (l2 & t2 & [= <-] & Hi2). split.
      - destruct Hhead as [Hp|Hnot].
        + subst h1. by rewrite padded_store_no_padding.
        + apply padded_store_other. intros ->. done.
      - eapply lookup_lt_Some. apply (io_lookup _ _ _ _ _ _ _ _ Hi2). }
    destruct (IH (h1 ++ [out]) (outputs ++ [Some (length h1)]))
      as (h' & new & Hrun & Hsized & Hlen & Hframe & Hpad).
    { eapply layer_ok_frame; [|by eapply layer_ok_padded].
      intros l' t' _ Hl'. by apply lookup_app_l_Some. }
    { apply Forall_forall. intros p Hp. rewrite Forall_forall in Hrest.
      destruct (Hrest p Hp) as (l2 & t2 & -> & Hi2).
      exists l2, t2. split; [done|]. eapply item_ok_frame; [|exact Hi2].
      destruct (Hkeep l2 Hp) as [Heq Hlt].
      rewrite lookup_app_l by lia. done. }
    { done. }
    rewrite length_app in Hlen, Hframe. cbn in Hlen, Hframe.
    exists h', (Some (length h1) :: new). rewrite Hrun, <- app_assoc. cbn.
    split; [done|]. split; [|split; [|split]].
    + constructor.
      * exists l, t, (length h1), out.
        injection Hout as Ho1 Ho2 Ho3.
        split; [done|]. split; [apply (io_lookup _ _ _ _ _ _ _ _ Hi)|].
        split; [done|]. split; [|done].
        rewrite Hframe; [by rewrite list_lookup_middle | lia |].
        intros Hin. destruct (Hkeep _ Hin). lia.
      * eapply Forall2_impl_elem; [exact Hsized|].
        intros p q Hp. apply sized_for_frame. intros l' ->.
        destruct (Hkeep l' Hp) as [Heq Hlt].
        rewrite lookup_app_l by lia. done.
    + lia.
    + intros l' Hl' Hnot. rewrite Hframe; [|lia|].
      * rewrite lookup_app_l by lia. apply padded_store_other.
        intros ->. apply Hnot. by left.
      * intros Hin. apply Hnot. by right.
    + intros Hp l' t' Hin Hl'.
      destruct Hhead as [?|Hnot]; [lia|].
      apply elem_of_cons in Hin as [[= ->]|Hin].
      * rewrite Hframe; [|pose proof (lookup_lt_Some _ _ _ Hl'); lia|done].
        rewrite lookup_app_l by (pose proof (lookup_lt_Some _ _ _ Hl'); lia).
        rewrite (io_lookup _ _ _ _ _ _ _ _ Hi) in Hl'. injection Hl' as <-.
        subst h1. unfold padded_store.
        replace (0 <? padding_ L) with true by (symmetry; by apply Z.ltb_lt).
        apply list_lookup_insert_eq.
        eapply lookup_lt_Some, (io_lookup _ _ _ _ _ _ _ _ Hi).
      * apply Hpad; [done | done |].
        destruct (Hkeep l' Hin) as [Heq Hlt].
        rewrite lookup_app_l by lia. by rewrite Heq.
Qed.

(** * Properties of the layer *)

(** ** Output sizes, and what a call appends *)

Lemma valid_call_5x5 : valid_call 5 layer_plain store_5x5 [Some 0%nat] 1 3 3.
Proof.
  split.
  - split; try (by vm_compute).
    constructor; [|constructor]. by exists 1%nat, (constant 1 3 3 1%float).
  - done.
  - by vm_compute.
  - constructor; [|constructor].
    exists 0%nat, (constant 1 5 5 1%float). split; [done|].
    split; try (by vm_compute). by left.
  - left. by vm_compute.
Defined.

(** C5: for a valid call, with inputs of height H and width W and padding
    p, Forward succeeds and the output made for each input has
    floor((H + 2p - kernel_h) / stride) + 1 rows and
    floor((W + 2p - kernel_w) / stride) + 1 columns (and one channel per
    kernel). *)
Theorem Forward_output_dimensions fuel L h inputs outputs C kernel_h kernel_w :
  valid_call fuel L h inputs C kernel_h kernel_w ->
  exists h' new,
    Forward fuel L h inputs outputs = Finished kInferSuccess h' (outputs ++ new) /\
    Forall2 (fun p q =>
       exists l t lo o,
         p = Some l /\ h !! l = Some t /\ q = Some lo /\ h' !! lo = Some o /\
         n_channels o = Z.of_nat (length (weights_ L)) /\
         n_rows o = (n_rows t + 2 * padding_ L - kernel_h) / stride_ L + 1 /\
         n_cols o = (n_cols t + 2 * padding_ L - kernel_w) / stride_ L + 1)
      inputs new.
Proof.
  intros [HL Hne Hn Hins Hdis].
  rewrite Forward_list; try done.
  - destruct (forward_list_ok fuel L C kernel_h kernel_w inputs h outputs HL Hins Hdis)
      as (h' & new & Hrun & Hsized & _).
    exists h', new. split; [done|].
    eapply Forall2_impl; [exact Hsized|].
    intros p q (l & t & lo & o & -> & Hl & -> & Hlo & Hch & Hr & Hc).
    exists l, t, lo, o. done.
  - apply (lo_weights _ _ _ _ _ HL).
  - intros Hu. by destruct (lo_bias _ _ _ _ _ HL Hu).
Qed.

(** H = 5, kernel_h = 3, stride = 1, p = 0: the output height is 3. *)
Lemma Forward_output_dimensions_5x5 :
  exists h' lo o,
    Forward 5 layer_plain store_5x5 [Some 0%nat] [] =
      Finished kInferSuccess h' [Some lo] /\
    h' !! lo = Some o /\ n_rows o = 3 /\ n_cols o = 3.
Proof.
  destruct (Forward_output_dimensions 5 layer_plain store_5x5 [Some 0%nat] [] 1 3 3
              valid_call_5x5) as (h' & new & Hrun & Hall).
  inversion Hall as [|p q ps qs Hhead Htail]; subst.
  inversion Htail; subst.
  destruct Hhead as (l & t & lo & o & Hl & Ht & -> & Hlo & _ & Hr & Hc).
  injection Hl as <-. injection Ht as <-.
  exists h', lo, o. split; [exact Hrun|]. split; [exact Hlo|].
  split; [exact Hr | exact Hc].
Defined.

(** C10: a valid call on N inputs with M elements already in outputs
    succeeds and leaves M + N elements there, the first M being the
    original ones in their order. *)
Theorem Forward_appends fuel L h inputs outputs C kernel_h kernel_w :
  valid_call fuel L h inputs C kernel_h kernel_w ->
  exists h' outputs',
    Forward fuel L h inputs outputs = Finished kInferSuccess h' outputs' /\
    length outputs' = (length outputs + length inputs)%nat /\
    take (length outputs) outputs' = outputs.
Proof.
  intros [HL Hne Hn Hins Hdis].
  rewrite Forward_list; try done.
  - destruct (forward_list_ok fuel L C kernel_h kernel_w inputs h outputs HL Hins Hdis)
      as (h' & new & Hrun & Hsized & _).
    exists h', (outputs ++ new). split; [done|].
    apply Forall2_length in Hsized. split.
    + rewrite length_app. lia.
    + by rewrite take_app_length.
  - apply (lo_weights _ _ _ _ _ HL).
  - intros Hu. by destruct (lo_bias _ _ _ _ _ HL Hu).
Qed.

Lemma Forward_appends_5x5 :
  exists h' outputs',
    Forward 5 layer_plain store_5x5 [Some 0%nat] [Some 1%nat; None] =
      Finished kInferSuccess h' outputs' /\
    length outputs' = (2 + 1)%nat /\
    take 2 outputs' = [Some 1%nat; None].
Proof.
  exact (Forward_appends 5 layer_plain store_5x5 [Some 0%nat] [Some 1%nat; None] 1 3 3
           valid_call_5x5).
Defined.

(** ** The scalar example *)

(** C6: a layer with one 1x1 kernel of one channel holding 2.0, stride 1,
    no padding and the bias 1.0, run on one input of a single cell
    holding 3.0, returns one output, of a single cell holding 7.0. *)
Theorem Forward_scalar fuel L h lw lb li w b x :
  padding_ L = 0 -> stride_ L = 1 -> use_bias_ L = true ->
  weights_ L = [Some lw] -> bias_ L = [Some lb] ->
  h !! lw = Some w -> shape w = (1, 1, 1) -> cell w 0 0 0 = 2%float ->
  h !! lb = Some b -> shape b = (1, 1, 1) -> cell b 0 0 0 = 1%float ->
  h !! li = Some x -> shape x = (1, 1, 1) -> cell x 0 0 0 = 3%float ->
  (0 < fuel)%nat ->
  exists o,
    Forward fuel L h [Some li] [] =
      Finished kInferSuccess (h ++ [o]) [Some (length h)] /\
    shape o = (1, 1, 1) /\ cell o 0 0 0 = 7%float.
Proof.
  intros Hp Hs Hu Hws Hbs Hlw Hw Hwv Hlb Hb Hbv Hli Hx Hxv Hfuel.
  injection Hw as Hw1 Hw2 Hw3. injection Hb as Hb1 Hb2 Hb3.
  injection Hx as Hx1 Hx2 Hx3.
  rewrite Forward_list;
    [| done | by rewrite Hws | by rewrite Hws, Hbs | by vm_compute].
  cbn [forward_list]. unfold forward_item, padded_store. rewrite Hli, Hp, Hws.
  change (0 <? 0) with false. cbv iota. rewrite Hli.
  change (U32.wrap (Z.of_nat (length [Some lw]))) with 1.
  unfold for_count. change (seqZ 0 1) with [0]. cbn [for_each].
  unfold forward_kernel, convolve. rewrite Hws, Hs, Hu, Hbs.
  change ([Some lw] !! Z.to_nat 0) with (Some (Some lw)).
  change ([Some lb] !! Z.to_nat 0) with (Some (Some lb)).
  cbv beta iota delta [mbind step_bind of_option deref]. rewrite Hlw.
  cbv beta iota delta [rows cols channels plane front].
  rewrite Hw1, Hw2, Hw3, Hx1, Hx2, Hx3.
  assert (tensor_empty b = false) as Hbe.
  { unfold tensor_empty. by rewrite Hb1, Hb2, Hb3. }
  destruct fuel as [|[|fuel]]; [lia| |].
  all: cbv -[lookup list_lookup app length PrimFloat.add PrimFloat.mul cell tensor_empty].
  all: rewrite Hlb, Hbe.
  all: cbv -[lookup list_lookup app length PrimFloat.add PrimFloat.mul cell].
  all: eexists; split; [reflexivity|]; split; [reflexivity|].
  all: cbn; rewrite Hxv, Hwv, Hbv; vm_compute; reflexivity.
Qed.

Lemma Forward_scalar_built :
  GetInstance (Some op_scalar) None [constant 1 1 1 3%float] =
    Built kParameterParseSuccess (Some layer_scalar) store_scalar /\
  exists o,
    Forward 1 layer_scalar store_scalar [Some 0%nat] [] =
      Finished kInferSuccess (store_scalar ++ [o]) [Some (length store_scalar)] /\
    shape o = (1, 1, 1) /\ cell o 0 0 0 = 7%float.
Proof.
  split; [vm_compute; reflexivity|].
  eapply (Forward_scalar 1 layer_scalar store_scalar 1 2 0);
    first [reflexivity | lia].
Defined.

(** ** The invariants of the layer *)

Lemma Forward_frame fuel L h inputs outputs s h' outputs' :
  Forward fuel L h inputs outputs = Finished s h' outputs' ->
  (exists new, outputs' = outputs ++ new /\ (length new <= length inputs)%nat) /\
  (forall l t, h !! l = Some t -> padding_ L <= 0 \/ (Some l ∉ inputs) ->
               h' !! l = Some t).
Proof.
  unfold Forward.
  assert (forall (h : heap) (outputs : list ptr),
    (exists new, outputs = outputs ++ new /\ (length new <= length inputs)%nat) /\
    (forall l t, h !! l = Some t -> padding_ L <= 0 \/ (Some l ∉ inputs) ->
                 h !! l = Some t)) as Hsame.
  { intros h0 o0. split; [|done]. exists []. rewrite app_nil_r. split; [done|cbn; lia]. }
  repeat case_match; try (intros [= <- <- <-]; apply Hsame).
  intros Hrun. apply forward_batch_frame in Hrun as ((new & -> & Hlen & _) & _ & Hfr & Hnp).
  split.
  - exists new. split; [done|]. rewrite length_seqZ in Hlen.
    pose proof (Z.mod_pos_bound (Z.of_nat (length inputs)) U32.modulus ltac:(done)).
    pose proof (Z.mod_le (Z.of_nat (length inputs)) U32.modulus ltac:(lia) ltac:(done)).
    unfold U32.wrap in Hlen. lia.
  - intros l t Hl [Hp|Hnot].
    + rewrite Hnp; [done | done | by eapply lookup_lt_Some].
    + rewrite Hfr; [done | by eapply lookup_lt_Some | done].
Qed.

Lemma holds_shape_frame (h h' : heap) sh p :
  (forall l t, p = Some l -> h !! l = Some t -> h' !! l = Some t) ->
  holds_shape h sh p -> holds_shape h' sh p.
Proof.
  intros Hfr (l & t & -> & Hl & Hs). exists l, t. split; [done|]. split; [|done].
  by apply Hfr.
Qed.

Lemma layer_invariant_frame oc ic kh kw ub L (h h' : heap) :
  (forall l t, Some l ∈ weights_ L ++ bias_ L -> h !! l = Some t -> h' !! l = Some t) ->
  layer_invariant oc ic kh kw ub L h -> layer_invariant oc ic kh kw ub L h'.
Proof.
  intros Hfr (Hlen & Hws & Hbs). split; [done|]. split.
  - apply Forall_forall. intros p Hp. rewrite Forall_forall in Hws.
    eapply holds_shape_frame; [|by apply Hws].
    intros l t -> Hl. apply Hfr; [|done]. apply elem_of_app. by left.
  - destruct ub; [|done]. destruct Hbs as [Hlb Hbs]. split; [done|].
    apply Forall_forall. intros p Hp. rewrite Forall_forall in Hbs.
    eapply holds_shape_frame; [|by apply Hbs].
    intros l t -> Hl. apply Hfr; [|done]. apply elem_of_app. by right.
Qed.

(** X19: the constructor, given (output_channel, in_channel, kernel_h,
    kernel_w, padding, stride, use_bias), leaves a layer with
    output_channel weight tensors, each of shape (in_channel, kernel_h,
    kernel_w), and with use_bias as many bias tensors, each of shape
    (1, 1, 1), without it none; the tensors that were in the store are
    still there. Every later call of Forward on inputs that are not the
    layer's own tensors (or with no padding) keeps these invariants. *)
Theorem ConvolutionLayer_new_invariant output_channel in_channel kernel_h kernel_w
    padding stride use_bias h h' L :
  0 <= output_channel ->
  ConvolutionLayer_new output_channel in_channel kernel_h kernel_w
    padding stride use_bias h = (h', L) ->
  layer_invariant output_channel in_channel kernel_h kernel_w use_bias L h' /\
  padding_ L = padding /\ stride_ L = stride /\ use_bias_ L = use_bias /\
  (exists ext, h' = h ++ ext) /\
  (forall fuel h1 inputs outputs s h2 outputs',
     layer_invariant output_channel in_channel kernel_h kernel_w use_bias L h1 ->
     padding_ L <= 0 \/ apart (weights_ L ++ bias_ L) inputs ->
     Forward fuel L h1 inputs outputs = Finished s h2 outputs' ->
     layer_invariant output_channel in_channel kernel_h kernel_w use_bias L h2).
Proof.
  intros Hoc. unfold ConvolutionLayer_new.
  pose proof (ctor_iter_inv in_channel kernel_h kernel_w use_bias h
                (Z.to_nat output_channel)) as Hinv.
  destruct (Nat.iter _ _ _) as [[h0 ws] bs]. intros [= <- <-].
  destruct Hinv as (Hext & Hlen & Hws & Hbs). cbn.
  split; [|split; [done|split; [done|split; [done|split; [done|]]]]].
  - unfold layer_invariant. cbn [weights_ bias_].
    split; [rewrite Hlen; lia|]. split; [done|].
    destruct use_bias; [|done]. destruct Hbs as [Hlb Hbs].
    split; [congruence | done].
  - intros fuel h1 inputs outputs s h2 outputs' Hinv1 Hap Hrun.
    apply Forward_frame in Hrun as [_ Hfr].
    eapply layer_invariant_frame; [|exact Hinv1].
    intros l t Hin Hl. apply Hfr; [done|].
    destruct Hap as [?|Hap]; [by left | right]. by apply Hap.
Qed.

(** Two kernels of three channels, 3x3, with bias, built on the store of
    the batch example; a later call on that store keeps the invariants. *)
Lemma ConvolutionLayer_new_invariant_two_kernels :
  exists h' L,
    ConvolutionLayer_new 2 3 3 3 1 1 true store_batch = (h', L) /\
    layer_invariant 2 3 3 3 true L h' /\
    length (weights_ L) = 2%nat /\ length (bias_ L) = 2%nat /\
    (forall fuel inputs outputs s h2 outputs',
       apart (weights_ L ++ bias_ L) inputs ->
       Forward fuel L h' inputs outputs = Finished s h2 outputs' ->
       layer_invariant 2 3 3 3 true L h2).
Proof.
  eexists _, _. split; [reflexivity|].
  edestruct (ConvolutionLayer_new_invariant 2 3 3 3 1 1 true store_batch)
    as (Hinv & _ & _ & _ & _ & Hkeep); [lia | reflexivity |].
  split; [exact Hinv|]. split; [reflexivity|]. split; [reflexivity|].
  intros fuel inputs outputs s h2 outputs' Hap Hrun.
  eapply Hkeep; [exact Hinv | right; exact Hap | exact Hrun].
Defined.

(** C7 fails on the code: the invariants hold after construction, but
    Forward does not keep them. The layer made by the constructor from
    (1, 1, 1, 1, padding 1, stride 1, no bias) has one weight tensor of
    shape (1, 1, 1). A call of Forward whose input is that weight tensor
    pads it where it lives, as it pads any input, and returns success:
    afterwards the weight has shape (1, 3, 3) and the invariant on the
    weight shapes is gone. *)
Lemma ConvolutionLayer_new_invariant_not_kept :
  exists h' L,
    ConvolutionLayer_new 1 1 1 1 1 1 false [] = (h', L) /\
    layer_invariant 1 1 1 1 false L h' /\
    weights_ L = [Some 0%nat] /\ shape <$> h' = [(1, 1, 1)] /\
    exists h2 outputs',
      Forward 3 L h' (weights_ L) [] = Finished kInferSuccess h2 outputs' /\
      shape <$> h2 = [(1, 3, 3); (1, 1, 1)] /\
      ~ layer_invariant 1 1 1 1 false L h2.
Proof.
  eexists _, _. split; [reflexivity|]. split; [|split; [reflexivity|split]].
  - split; [reflexivity|]. split; [|done].
    repeat constructor. eexists 0%nat, _. by split; [|split; [reflexivity|]].
  - by vm_compute.
  - set (L := mkConv 1 1 false [Some 0%nat] []).
    set (h' := [Tensor_new 1 1 1] : heap).
    assert (shapes_of (Forward 3 L h' (weights_ L) []) =
            Some (kInferSuccess, [(1, 3, 3); (1, 1, 1)], [Some 1%nat])) as Hs
      by (vm_compute; reflexivity).
    change (exists h2 outputs',
              Forward 3 L h' (weights_ L) [] = Finished kInferSuccess h2 outputs' /\
              shape <$> h2 = [(1, 3, 3); (1, 1, 1)] /\
              ~ layer_invariant 1 1 1 1 false L h2).
    destruct (Forward 3 L h' (weights_ L) []) as [s h2 o|f]; [|done].
    cbn in Hs. injection Hs as -> Hsh ->.
    exists h2, [Some 1%nat]. split; [done|]. split; [done|].
    intros (_ & Hws & _).
    apply Forall_inv in Hws as (l & t & [= <-] & Hl & Hshape).
    apply (f_equal (fun shs => shs !! 0%nat)) in Hsh.
    rewrite list_lookup_fmap, Hl in Hsh. cbn in Hsh. congruence.
Qed.

(** ** The builder's checks *)

Lemma parse_params_first_failure ps :
  match first_failure ps required with
  | Some sig => parse_params ps = Return sig
  | None => exists p, parse_params ps = Next p
  end.
Proof.
  unfold parse_params, require, required, first_failure, entry_ok, param_ok.
  cbn [fst snd].
  destruct (ps !! "in_channels") as [[]|]; cbn; try done.
  destruct (ps !! "out_channels") as [[]|]; cbn; try done.
  destruct (ps !! "padding") as [[]|]; cbn; try done.
  destruct (ps !! "bias") as [[]|]; cbn; try done.
  destruct (ps !! "stride") as [[]|]; cbn; try done.
  destruct (ps !! "kernel_size") as [[]|]; cbn; try done.
  eauto.
Qed.

Lemma parse_params_values ps p :
  parse_params ps = Next p ->
  ps !! "out_channels" = Some (RuntimeParameterInt (p_out_channel p)) /\
  ps !! "bias" = Some (RuntimeParameterBool (p_use_bias p)).
Proof.
  unfold parse_params, require.
  destruct (ps !! "in_channels") as [[]|]; cbn; try done.
  destruct (ps !! "out_channels") as [[]|]; cbn; try done.
  destruct (ps !! "padding") as [[]|]; cbn; try done.
  destruct (ps !! "bias") as [[]|]; cbn; try done.
  destruct (ps !! "stride") as [[]|]; cbn; try done.
  destruct (ps !! "kernel_size") as [[]|]; cbn; try done.
  by intros [= <-].
Qed.

Lemma first_failure_split ps pre e post :
  forallb (entry_ok ps) pre = true -> entry_ok ps e = false ->
  first_failure ps (pre ++ e :: post) = Some e.2.
Proof.
  induction pre as [|e' pre IH]; cbn.
  - by intros _ ->.
  - intros [He' Hpre]%andb_true_iff He. rewrite He'. by apply IH.
Qed.

Lemma first_failure_elem ps req sig :
  first_failure ps req = Some sig ->
  exists key v, (key, v, sig) ∈ req /\ param_ok ps key v = false.
Proof.
  induction req as [|[[key v] sig'] rest IH]; cbn; [done|].
  unfold entry_ok at 1. cbn.
  destruct (param_ok ps key v) eqn:Hok.
  - intros (key' & v' & Hin & Hbad)%IH. exists key', v'. split; [by right | done].
  - intros [= <-]. exists key, v. split; [by left | done].
Qed.

Lemma returns_in_set_bias P bias : forall vals h, returns_in P (set_bias bias vals h).
Proof.
  induction bias as [|[l|] bias IH]; intros [|v vals] h; cbn;
    try apply returns_in_next; try apply returns_in_crash.
  apply returns_in_bind; [apply returns_in_of_option | intros t; apply IH].
Qed.

Lemma returns_in_total_volume P h ws : returns_in P (total_volume h ws).
Proof.
  induction ws as [|w ws IH]; cbn; [apply returns_in_next|].
  apply returns_in_bind; [apply returns_in_deref | intros t].
  apply returns_in_bind; [apply IH | intros n; apply returns_in_next].
Qed.

Lemma returns_in_distribute P vals ws : forall off h,
  returns_in P (distribute ws vals off h).
Proof.
  induction ws as [|[l|] ws IH]; intros off h; cbn;
    try apply returns_in_next; try apply returns_in_crash.
  apply returns_in_bind; [apply returns_in_of_option | intros t; apply IH].
Qed.

Lemma returns_in_set_weights P ws vals h : returns_in P (set_weights ws vals h).
Proof.
  unfold set_weights.
  apply returns_in_bind; [apply returns_in_total_volume | intros n].
  apply returns_in_bind; [apply returns_in_guard | intros _].
  apply returns_in_distribute.
Qed.

Lemma load_attributes_status attrs oc L h s cl h' :
  load_attributes attrs oc L h = Built s cl h' -> attribute_phase s.
Proof.
  unfold load_attributes, attribute_phase.
  destruct (attrs !! "bias") as [bias|]; [|intros [= <- _ _]; tauto].
  destruct (_ || _); [intros [= <- _ _]; tauto|].
  destruct (set_bias _ _ _) as [h1|s1|f] eqn:Hb; [| |done].
  - destruct (attrs !! "weight") as [weight|]; [|intros [= <- _ _]; tauto].
    destruct (bool_decide _); [intros [= <- _ _]; tauto|].
    destruct (set_weights _ _ _) as [h2|s2|f] eqn:Hw; [| |done].
    + intros [= <- _ _]. tauto.
    + exfalso. revert Hw. by apply (returns_in_set_weights (fun _ => False)).
  - exfalso. revert Hb. by apply (returns_in_set_bias (fun _ => False)).
Qed.

Lemma GetInstance_first_failure op cl h :
  match first_failure (params op) required with
  | Some sig => GetInstance (Some op) cl h = Built sig cl h
  | None => forall s cl' h', GetInstance (Some op) cl h = Built s cl' h' ->
                             attribute_phase s
  end.
Proof.
  unfold GetInstance. pose proof (parse_params_first_failure (params op)) as Hp.
  destruct (first_failure _ _) as [sig|].
  - by rewrite Hp.
  - destruct Hp as [p ->]. intros s cl' h'.
    destruct (negb _); [done|].
    destruct (ConvolutionLayer_new _ _ _ _ _ _ _ _) as [h1 L].
    apply load_attributes_status.
Qed.

(** C8: each of the six required parameters has its own signal; the
    builder fails with the signal of a parameter when that parameter is
    the first, in the builder's order, whose key is missing or whose value
    has another variant than expected, handle and store untouched; and
    whenever the builder fails with the signal of a parameter, that
    parameter is missing or of the wrong variant. *)
Theorem GetInstance_parameter_signals op cl h :
  NoDup (required.*2) /\
  (forall pre key v sig post,
     required = pre ++ (key, v, sig) :: post ->
     forallb (entry_ok (params op)) pre = true ->
     param_ok (params op) key v = false ->
     GetInstance (Some op) cl h = Built sig cl h) /\
  (forall sig cl' h',
     GetInstance (Some op) cl h = Built sig cl' h' ->
     sig ∈ required.*2 ->
     exists key v, (key, v, sig) ∈ required /\ param_ok (params op) key v = false).
Proof.
  pose proof (GetInstance_first_failure op cl h) as Hff.
  split; [|split].
  - by apply (bool_decide_unpack _).
  - intros pre key v sig post Hreq Hpre Hbad.
    rewrite Hreq, (first_failure_split _ pre (key, v, sig) post) in Hff; done.
  - intros sig cl' h' Hrun Hsig.
    destruct (first_failure (params op) required) as [sig0|] eqn:Hf.
    + rewrite Hff in Hrun. revert Hrun. intros [= <- _ _].
      by apply first_failure_elem.
    + exfalso. apply Hff in Hrun. revert Hsig. cbn.
      rewrite !elem_of_cons, elem_of_nil.
      destruct Hrun as [-> | [-> | ->]]; intros H;
        repeat (destruct H as [H|H]; [discriminate|]); done.
Qed.

Lemma GetInstance_parameter_signals_padding :
  GetInstance (Some op_padding_int) None [] = Built kParameterMissingPadding None [] /\
  exists key v, (key, v, kParameterMissingPadding) ∈ required /\
                param_ok (params op_padding_int) key v = false.
Proof.
  destruct (GetInstance_parameter_signals op_padding_int None []) as (_ & Hfirst & Honly).
  assert (GetInstance (Some op_padding_int) None [] =
          Built kParameterMissingPadding None []) as Hrun.
  { apply (Hfirst [("in_channels", VInt, kParameterMissingInChannel);
                   ("out_channels", VInt, kParameterMissingOutChannel)]
                  "padding" VIntArray kParameterMissingPadding
                  [("bias", VBool, kParameterMissingUseBias);
                   ("stride", VIntArray, kParameterMissingStride);
                   ("kernel_size", VIntArray, kParameterMissingKernel)]);
      vm_compute; reflexivity. }
  split; [exact Hrun|].
  apply (Honly _ _ _ Hrun). vm_compute.
  do 2 apply list_elem_of_further. apply list_elem_of_here.
Defined.

(** C9: once the six parameters are read and the three arrays have two
    entries each, the builder asks for the "bias" attribute whatever the
    "bias" parameter says: when the key is absent, or the shape is empty,
    or the first entry of the shape is not the value of "out_channels",
    it fails with the signal of the bias attribute. *)
Theorem GetInstance_bias_attribute op cl h p out_channels use_bias :
  parse_params (params op) = Next p ->
  length (p_kernel p) = 2%nat -> length (p_stride p) = 2%nat ->
  length (p_padding p) = 2%nat ->
  params op !! "out_channels" = Some (RuntimeParameterInt out_channels) ->
  params op !! "bias" = Some (RuntimeParameterBool use_bias) ->
  bias_attribute_bad (attribute op) out_channels ->
  exists L h',
    GetInstance (Some op) cl h = Built kParameterMissingAttrBias (Some L) h' /\
    use_bias_ L = use_bias.
Proof.
  intros Hp Hk Hs Hpad Hoc Hub Hbad.
  destruct (parse_params_values _ _ Hp) as [Hoc' Hub'].
  rewrite Hoc in Hoc'. rewrite Hub in Hub'.
  injection Hoc' as Hoc'. injection Hub' as Hub'.
  unfold GetInstance. rewrite Hp, Hk, Hs, Hpad. cbn [Nat.eqb andb negb].
  destruct (ConvolutionLayer_new _ _ _ _ _ _ _ _) as [h1 L] eqn:HL.
  assert (use_bias_ L = use_bias) as HuL.
  { revert HL. unfold ConvolutionLayer_new.
    destruct (Nat.iter _ _ _) as [[h0 ws] bs]. intros [= _ <-]. by cbn. }
  exists L, h1. split; [|done].
  unfold load_attributes. unfold bias_attribute_bad in Hbad.
  destruct (attribute op !! "bias") as [b|]; [|done].
  destruct Hbad as [Hnil|Hne].
  - by rewrite bool_decide_eq_true_2.
  - destruct (attr_shape b) as [|d ds]; [done|]. cbn in Hne |- *.
    rewrite <- Hoc'. destruct (Z.eqb_spec d out_channels) as [->|]; [done|done].
Qed.

Lemma GetInstance_bias_attribute_off :
  exists L h',
    GetInstance (Some op_no_bias) None [] =
      Built kParameterMissingAttrBias (Some L) h' /\
    use_bias_ L = false.
Proof.
  eapply (GetInstance_bias_attribute op_no_bias None [] _ 1 false);
    vm_compute; reflexivity.
Defined.

(** ** The order of the checks *)

Lemma forward_kernel_checks fuel L h input kc k od lk kernel :
  weights_ L !! Z.to_nat k = Some (Some lk) -> h !! lk = Some kernel ->
  stride_ L <> 0 ->
  let oh := computed_output (stride_ L) (rows input) (rows kernel) in
  let ow := computed_output (stride_ L) (cols input) (cols kernel) in
  (oh <= 0 \/ ow <= 0 ->
   forward_kernel fuel L h input kc k od = Return kInferFailedOutputSizeError) /\
  (0 < oh -> 0 < ow -> channels kernel <> channels input ->
   forward_kernel fuel L h input kc k od = Return kInferFailedChannelParameterError).
Proof.
  intros Hk Hlk Hs oh ow. unfold forward_kernel. rewrite Hk. cbn. rewrite Hlk. cbn.
  replace (stride_ L =? 0) with false by (symmetry; by apply Z.eqb_neq). cbn.
  fold oh ow. split.
  - intros Hbad. replace ((oh <=? 0) || (ow <=? 0)) with true; [done|].
    symmetry. apply orb_true_iff. rewrite !Z.leb_le. done.
  - intros Hoh How Hch. replace ((oh <=? 0) || (ow <=? 0)) with false; cycle 1.
    { symmetry. apply orb_false_iff. rewrite !Z.leb_gt. done. }
    replace (channels kernel =? channels input) with false; [done|].
    symmetry. by apply Z.eqb_neq.
Qed.

Lemma seqZ_head n : 0 < n -> seqZ 0 n = 0 :: seqZ 1 (n - 1).
Proof. intros Hn. rewrite seqZ_cons by done. repeat f_equal; lia. Qed.

Lemma wrap_length_pos {A} (l : list A) :
  l <> [] -> Z.of_nat (length l) < U32.modulus -> 0 < U32.wrap (Z.of_nat (length l)).
Proof.
  intros Hne Hlt. rewrite wrap_small; destruct l; cbn in *; try done; lia.
Qed.

(** A status the first kernel leaves with on the first item is the status
    of the call. *)
Lemma Forward_first_return fuel L h inputs outputs l t rest input st :
  inputs = Some l :: rest -> Z.of_nat (length inputs) < U32.modulus ->
  weights_ L <> [] -> Z.of_nat (length (weights_ L)) < U32.modulus ->
  (use_bias_ L = true -> length (bias_ L) = length (weights_ L)) ->
  h !! l = Some t -> padded_store L h l t !! l = Some input ->
  forward_kernel fuel L (padded_store L h l t) input
    (U32.wrap (Z.of_nat (length (weights_ L)))) 0 None = Return st ->
  Forward fuel L h inputs outputs = Finished st (padded_store L h l t) outputs.
Proof.
  intros Hin Hn Hw Hkc Hb Hl Hl1 Hk. unfold Forward.
  rewrite !bool_decide_eq_false_2 by (done || by rewrite Hin).
  replace (use_bias_ L && _) with false; cycle 1.
  { symmetry. destruct (use_bias_ L); [|done].
    rewrite (Hb eq_refl), Nat.eqb_refl. done. }
  rewrite seqZ_head by (apply wrap_length_pos; [by rewrite Hin | done]).
  cbn [forward_batch]. rewrite Hin.
  change ((Some l :: rest) !! Z.to_nat 0) with (Some (Some l)). cbv iota.
  unfold forward_item. rewrite Hl. rewrite Hl1.
  unfold for_count. rewrite seqZ_head by (by apply wrap_length_pos).
  cbn [for_each]. rewrite Hk. done.
Qed.

(** C2, as stated, fails: with an input of two channels and one cell, a
    2x2 kernel of three channels and stride 1, the channel counts differ
    and the computed output size is 0, and Forward fails with the
    output-size signal, not with the channel signal. *)
Lemma Forward_size_before_channel :
  (exists input kernel,
     store_two_channels !! 0%nat = Some input /\
     store_two_channels !! 1%nat = Some kernel /\
     channels input <> channels kernel /\
     computed_output (stride_ layer_plain) (rows input) (rows kernel) = 0) /\
  Forward 1 layer_plain store_two_channels [Some 0%nat] [] =
    Finished kInferFailedOutputSizeError store_two_channels [] /\
  (forall h' outputs',
     Forward 1 layer_plain store_two_channels [Some 0%nat] [] <>
       Finished kInferFailedChannelParameterError h' outputs').
Proof.
  split; [|split].
  - eexists _, _. split; [reflexivity|]. split; [reflexivity|]. by vm_compute.
  - reflexivity.
  - intros h' outputs'. by vm_compute.
Qed.

(** C2, amended: Forward checks, in this order, that inputs is not
    empty, that the weights are not empty, and that with use_bias the
    bias and the weights have the same length; then, for the first input
    and the first kernel, a computed output height or width that is not
    positive fails with the output-size signal whatever the channel
    counts are, and only with positive sizes do differing channel counts
    fail with the channel signal. The failing call appends nothing. *)
Theorem Forward_check_order fuel L h inputs outputs :
  (inputs = [] ->
   Forward fuel L h inputs outputs = Finished kInferFailedInputEmpty h outputs) /\
  (inputs <> [] -> weights_ L = [] ->
   Forward fuel L h inputs outputs =
     Finished kInferFailedWeightParameterError h outputs) /\
  (inputs <> [] -> weights_ L <> [] ->
   use_bias_ L = true -> length (bias_ L) <> length (weights_ L) ->
   Forward fuel L h inputs outputs =
     Finished kInferFailedBiasParameterError h outputs) /\
  (forall l rest t input lk ws kernel,
     inputs = Some l :: rest -> Z.of_nat (length inputs) < U32.modulus ->
     weights_ L = Some lk :: ws -> Z.of_nat (length (weights_ L)) < U32.modulus ->
     (use_bias_ L = true -> length (bias_ L) = length (weights_ L)) ->
     h !! l = Some t ->
     padded_store L h l t !! l = Some input ->
     padded_store L h l t !! lk = Some kernel ->
     stride_ L <> 0 ->
     let oh := computed_output (stride_ L) (rows input) (rows kernel) in
     let ow := computed_output (stride_ L) (cols input) (cols kernel) in
     (oh <= 0 \/ ow <= 0 ->
      Forward fuel L h inputs outputs =
        Finished kInferFailedOutputSizeError (padded_store L h l t) outputs) /\
     (0 < oh -> 0 < ow -> channels kernel <> channels input ->
      Forward fuel L h inputs outputs =
        Finished kInferFailedChannelParameterError (padded_store L h l t) outputs)).
Proof.
  split; [|split; [|split]].
  - intros ->. reflexivity.
  - intros Hi Hw. unfold Forward.
    by rewrite (bool_decide_eq_false_2 _ Hi), (bool_decide_eq_true_2 _ Hw).
  - intros Hi Hw Hu Hlen. unfold Forward.
    rewrite (bool_decide_eq_false_2 _ Hi), (bool_decide_eq_false_2 _ Hw), Hu.
    replace (length (bias_ L) =? length (weights_ L))%nat with false; [done|].
    symmetry. by apply Nat.eqb_neq.
  - intros l rest t input lk ws kernel Hin Hn Hws Hkc Hb Hl Hl1 Hlk Hs oh ow.
    assert (weights_ L <> []) as Hne by (by rewrite Hws).
    destruct (forward_kernel_checks fuel L (padded_store L h l t) input
                (U32.wrap (Z.of_nat (length (weights_ L)))) 0 None lk kernel)
      as [Hsize Hchan]; [by rewrite Hws | done | done |].
    split.
    + intros Hbad. eapply Forward_first_return; try done. by apply Hsize.
    + intros Hoh How Hch. eapply Forward_first_return; try done. by apply Hchan.
Qed.

Lemma Forward_check_order_two_channels :
  Forward 1 layer_plain store_two_channels [Some 0%nat] [] =
    Finished kInferFailedOutputSizeError store_two_channels [].
Proof.
  destruct (Forward_check_order 1 layer_plain store_two_channels [Some 0%nat] [])
    as (_ & _ & _ & Hfirst).
  apply (Hfirst 0%nat [] (constant 2 1 1 1%float) (constant 2 1 1 1%float)
           1%nat [] (constant 3 2 2 1%float));
    [reflexivity | by vm_compute | reflexivity | by vm_compute | done
    | reflexivity | reflexivity | reflexivity | by vm_compute
    | left; by vm_compute].
Defined.

(** X18: the size Forward computes for an output, with a stride and a
    kernel of at least 1, is zero in one case only: a stride of 1 and a
    kernel exactly one larger than the padded input. *)
Lemma computed_output_zero_iff stride input kernel :
  0 <= input < U32.modulus -> 1 <= kernel < U32.modulus ->
  1 <= stride < U32.modulus ->
  computed_output stride input kernel = 0 <-> stride = 1 /\ kernel = input + 1.
Proof.
  intros Hi Hk Hs. pose proof modulus_eq as Hm.
  unfold computed_output, U32.add, U32.sub, U32.div, U32.wrap.
  set (d := (input - kernel) mod U32.modulus).
  assert (0 <= d < U32.modulus) as Hd by (apply Z.mod_pos_bound; lia).
  assert (0 <= d / stride <= d) as Hq.
  { split; [apply Z.div_pos; lia | apply div_below; lia]. }
  split.
  - intros Hz.
    assert (d / stride = U32.modulus - 1) as Hq1.
    { destruct (Z.eq_dec (d / stride) (U32.modulus - 1)) as [|Hne]; [done|].
      rewrite Z.mod_small in Hz by lia. lia. }
    assert (stride = 1) as ->.
    { destruct (Z.eq_dec stride 1) as [|Hne]; [done|].
      assert (d / stride < d) by (apply Z.div_lt; lia). lia. }
    split; [done|]. rewrite Z.div_1_r in Hq1. subst d.
    destruct (Z.lt_ge_cases input kernel) as [Hlt|Hge].
    + rewrite <- (Z.mod_add _ 1) in Hq1 by lia.
      rewrite Z.mod_small in Hq1 by lia. lia.
    + rewrite Z.mod_small in Hq1 by lia. lia.
  - intros [-> ->]. subst d. rewrite Z.div_1_r.
    replace (input - (input + 1)) with (-1) by lia.
    rewrite Hm. reflexivity.
Qed.

(** C3 fails on the code: an input of one cell under a 3x3 kernel, stride
    1, no padding. The height after padding, 1, is below the kernel
    height, 3; the subtraction wraps, the computed output size is
    4294967295, the check [output_h <= 0] lets it pass, and the call ends
    in the window loop, at a window outside the input, with no status. *)
Lemma Forward_small_input_not_rejected :
  (exists input kernel,
     store_small !! 0%nat = Some input /\ store_small !! 1%nat = Some kernel /\
     rows input < rows kernel /\
     computed_output (stride_ layer_plain) (rows input) (rows kernel) = 4294967295) /\
  (forall fuel, Forward (S fuel) layer_plain store_small [Some 0%nat] [] =
                Aborted OutOfRange) /\
  Forward 0 layer_plain store_small [Some 0%nat] [] = Aborted OutOfFuel.
Proof.
  split; [|split].
  - eexists _, _. split; [reflexivity|]. split; [reflexivity|]. by vm_compute.
  - intros fuel. reflexivity.
  - reflexivity.
Qed.

(** ** Where a channel mismatch stops the batch *)

Lemma for_each_return_inv {R S} idx (body : Z -> S -> step R S) s st :
  for_each idx body s = Return st ->
  exists i s', i ∈ idx /\ body i s' = Return st.
Proof.
  revert s. induction idx as [|i rest IH]; intros s; cbn; [done|].
  destruct (body i s) as [s1|st1|f] eqn:Hb; cbn; [| |done].
  - intros (j & s' & Hj & Hbj)%IH. exists j, s'. split; [by right | done].
  - intros [= <-]. exists i, s. split; [by left | done].
Qed.

Lemma forward_kernel_channel fuel L h input kc k od :
  forward_kernel fuel L h input kc k od = Return kInferFailedChannelParameterError ->
  exists lk kernel,
    weights_ L !! Z.to_nat k = Some (Some lk) /\ h !! lk = Some kernel /\
    channels kernel <> channels input.
Proof.
  unfold forward_kernel.
  destruct (weights_ L !! Z.to_nat k) as [[lk|]|]; cbn; try done.
  destruct (h !! lk) as [kernel|] eqn:Hlk; cbn; [|done].
  destruct (negb (stride_ L =? 0)); cbn; [|done].
  destruct (_ || _); [done|].
  destruct (Z.eqb_spec (channels kernel) (channels input)) as [Heq|Hne]; cbn.
  - intros Hc. exfalso. revert Hc. apply (returns_in_convolve (fun _ => False)).
  - intros _. by exists lk, kernel.
Qed.

(** The item at [p] in store [h] has another channel count than one of
    the layer's kernels. *)
Lemma forward_item_channel fuel L h input h1 :
  forward_item fuel L h input = ItemReturn kInferFailedChannelParameterError h1 ->
  exists l t k lk kernel,
    input = Some l /\ h1 !! l = Some t /\
    weights_ L !! k = Some (Some lk) /\ h1 !! lk = Some kernel /\
    channels kernel <> channels t.
Proof.
  unfold forward_item. destruct input as [l|]; [|done].
  destruct (h !! l) as [t|]; [|done].
  destruct (padded_store L h l t !! l) as [t'|] eqn:Hl'; [|done].
  destruct (for_count _ _ _) as [[out|]|s'|f] eqn:Hk; try done.
  - by destruct (tensor_empty out).
  - intros [= -> <-]. apply for_each_return_inv in Hk as (k & od & _ & Hk).
    apply forward_kernel_channel in Hk as (lk & kernel & Hw & Hlk & Hne).
    exists l, t', (Z.to_nat k), lk, kernel. done.
Qed.

Lemma forward_batch_channel fuel L inputs idx : forall h outputs h' outputs',
  forward_batch fuel L inputs idx h outputs =
    Finished kInferFailedChannelParameterError h' outputs' ->
  exists new i l t k lk kernel,
    outputs' = outputs ++ new /\ idx !! length new = Some i /\
    inputs !! Z.to_nat i = Some (Some l) /\ h' !! l = Some t /\
    weights_ L !! k = Some (Some lk) /\ h' !! lk = Some kernel /\
    channels kernel <> channels t.
Proof.
  induction idx as [|i rest IH]; intros h outputs h' outputs'; cbn; [done|].
  destruct (inputs !! Z.to_nat i) as [input|] eqn:Hi; [|done].
  destruct (forward_item fuel L h input) as [h1 out|s1 h1|f] eqn:Hitem; [| |done].
  - intros (new & j & l & t & k & lk & kernel & -> & Hj & Hrest)%IH.
    exists (Some (length h1) :: new), j, l, t, k, lk, kernel.
    rewrite <- app_assoc. done.
  - intros [= -> <- <-].
    apply forward_item_channel in Hitem as (l & t & k & lk & kernel & -> & Hrest).
    exists [], i, l, t, k, lk, kernel. rewrite app_nil_r. done.
Qed.

(** C4, as stated, fails: in a batch of two inputs where the second one
    has two channels under a kernel of one, Forward fails with the
    channel signal after it has appended the output of the first input. *)
Lemma Forward_mismatch_after_output :
  exists h',
    Forward 1 layer_plain store_batch [Some 0%nat; Some 2%nat] [] =
      Finished kInferFailedChannelParameterError h' [Some 3%nat] /\
    is_Some (h' !! 3%nat).
Proof. eexists. split; [reflexivity|]. eexists. reflexivity. Qed.

(** C4, amended: whenever Forward fails with the channel signal, the
    elements appended to outputs are as many as the input items before
    the mismatching one, the item whose channel count differs from that
    of one of the kernels; outputs receives no element only when that
    item is the first of the batch. *)
Theorem Forward_channel_mismatch_outputs fuel L h inputs outputs h' outputs' :
  Forward fuel L h inputs outputs =
    Finished kInferFailedChannelParameterError h' outputs' ->
  exists new l t k lk kernel,
    outputs' = outputs ++ new /\
    inputs !! length new = Some (Some l) /\ h' !! l = Some t /\
    weights_ L !! k = Some (Some lk) /\ h' !! lk = Some kernel /\
    channels kernel <> channels t.
Proof.
  unfold Forward. repeat case_match; try done.
  intros (new & i & l & t & k & lk & kernel & -> & Hi & Hin & Hrest)%forward_batch_channel.
  apply lookup_seqZ in Hi as [-> _].
  exists new, l, t, k, lk, kernel. split; [done|].
  split; [|done]. by replace (Z.to_nat (0 + Z.of_nat (length new))) with (length new) in Hin by lia.
Qed.

Lemma Forward_channel_mismatch_outputs_batch :
  exists h' new l t k lk kernel,
    Forward 1 layer_plain store_batch [Some 0%nat; Some 2%nat] [] =
      Finished kInferFailedChannelParameterError h' ([] ++ new) /\
    [Some 0%nat; Some 2%nat] !! length new = Some (Some l) /\ h' !! l = Some t /\
    weights_ layer_plain !! k = Some (Some lk) /\ h' !! lk = Some kernel /\
    channels kernel <> channels t.
Proof.
  edestruct (Forward_channel_mismatch_outputs 1 layer_plain store_batch
               [Some 0%nat; Some 2%nat] [])
    as (new & l & t & k & lk & kernel & Hout & Hrest); [reflexivity|].
  eexists _, new, l, t, k, lk, kernel. split; [|exact Hrest].
  rewrite <- Hout. reflexivity.
Defined.

(** ** Padding in place *)

(** With padding, a valid call leaves each of its input tensors padded:
    larger by twice the padding in height and in width. *)
Lemma Forward_pads_inputs fuel L h inputs outputs C kernel_h kernel_w :
  valid_call fuel L h inputs C kernel_h kernel_w -> 0 < padding_ L ->
  exists h' outputs',
    Forward fuel L h inputs outputs = Finished kInferSuccess h' outputs' /\
    forall l t, Some l ∈ inputs -> h !! l = Some t ->
      exists t', h' !! l = Some t' /\
                 n_rows t' = n_rows t + 2 * padding_ L /\
                 n_cols t' = n_cols t + 2 * padding_ L.
Proof.
  intros [HL Hne Hn Hins Hdis] Hp.
  rewrite Forward_list; try done.
  - destruct (forward_list_ok fuel L C kernel_h kernel_w inputs h outputs HL Hins Hdis)
      as (h' & new & Hrun & _ & _ & _ & Hpad).
    exists h', (outputs ++ new). split; [done|].
    intros l t Hin Hl. eexists. split; [by apply Hpad|]. cbn. lia.
  - apply (lo_weights _ _ _ _ _ HL).
  - intros Hu. by destruct (lo_bias _ _ _ _ _ HL Hu).
Qed.

(** C1 fails on the code: with padding 1, a call pads the caller's input
    tensor where it lives. The input at location 0, of shape (1, 1, 1)
    before the call, has shape (1, 3, 3) after it; a second call with the
    same arguments pads it again, to (1, 5, 5), and its output is 5x5 where
    the output of the first call is 3x3. *)
Lemma Forward_pads_input_in_place :
  shape <$> store_batch = [(1, 1, 1); (1, 1, 1); (2, 1, 1)] /\
  shapes_of (Forward 3 layer_padding_1 store_batch [Some 0%nat] []) =
    Some (kInferSuccess, [(1, 3, 3); (1, 1, 1); (2, 1, 1); (1, 3, 3)], [Some 3%nat]) /\
  shapes_of (and_then (Forward 3 layer_padding_1 store_batch [Some 0%nat] [])
               (fun h1 => Forward 5 layer_padding_1 h1 [Some 0%nat] [])) =
    Some (kInferSuccess,
          [(1, 5, 5); (1, 1, 1); (2, 1, 1); (1, 3, 3); (1, 5, 5)], [Some 4%nat]).
Proof. split; [|split]; vm_compute; reflexivity. Qed.

(** * Further properties *)

(** ** What Forward does with [outputs] *)

(** A valid call runs to success; what it leaves. *)
Lemma Forward_valid fuel L h inputs outputs C kernel_h kernel_w :
  valid_call fuel L h inputs C kernel_h kernel_w ->
  exists h' new,
    Forward fuel L h inputs outputs = Finished kInferSuccess h' (outputs ++ new) /\
    Forall2 (sized_for L kernel_h kernel_w h h') inputs new.
Proof.
  intros [HL Hne Hn Hins Hdis].
  rewrite Forward_list; try done.
  - destruct (forward_list_ok fuel L C kernel_h kernel_w inputs h outputs HL Hins Hdis)
      as (h' & new & Hrun & Hsized & _).
    by exists h', new.
  - apply (lo_weights _ _ _ _ _ HL).
  - intros Hu. by destruct (lo_bias _ _ _ _ _ HL Hu).
Defined.

Lemma prepend_app a b o : prepend a (prepend b o) = prepend (a ++ b) o.
Proof. destruct o; cbn; [|done]. by rewrite app_assoc. Qed.

Lemma forward_batch_prepend fuel L inputs idx : forall h outputs,
  forward_batch fuel L inputs idx h outputs =
  prepend outputs (forward_batch fuel L inputs idx h []).
Proof.
  induction idx as [|i rest IH]; intros h outputs; cbn.
  - by rewrite app_nil_r.
  - destruct (inputs !! Z.to_nat i) as [input|]; [|done].
    destruct (forward_item fuel L h input) as [h1 out|s1 h1|f]; cbn.
    + rewrite (IH _ (outputs ++ _)), (IH _ [_]). by rewrite prepend_app.
    + by rewrite app_nil_r.
    + done.
Qed.

(** X1: Forward never reads what outputs holds: a call on any outputs ends
    as the call on an empty sequence does, with the old elements in front
    of the new ones. *)
Theorem Forward_ignores_outputs fuel L h inputs outputs :
  Forward fuel L h inputs outputs = prepend outputs (Forward fuel L h inputs []).
Proof.
  unfold Forward. repeat case_match; cbn; try (by rewrite app_nil_r).
  apply forward_batch_prepend.
Qed.

Lemma forward_batch_status fuel L inputs idx : forall h outputs s h' outputs',
  forward_batch fuel L inputs idx h outputs = Finished s h' outputs' ->
  s = kInferSuccess \/ kernel_failure s.
Proof.
  induction idx as [|i rest IH]; intros h outputs s h' outputs'; cbn.
  - intros [= <- _ _]. by left.
  - destruct (inputs !! Z.to_nat i) as [input|]; [|done].
    destruct (forward_item fuel L h input) as [h1 out|s1 h1|f] eqn:Hitem; [| |done].
    + apply IH.
    + intros [= <- _ _]. right. by eapply forward_item_return.
Qed.

(** X2: the three statuses of the entry checks name their cause: Forward
    returns the input-empty status only for an empty inputs, the weight
    status only for a layer without weights, the bias status only with
    use_bias set and bias and weights of different lengths; and in these
    three cases the store and outputs are as they were. *)
Theorem Forward_entry_statuses fuel L h inputs outputs s h' outputs' :
  Forward fuel L h inputs outputs = Finished s h' outputs' ->
  (s = kInferFailedInputEmpty -> inputs = [] /\ h' = h /\ outputs' = outputs) /\
  (s = kInferFailedWeightParameterError ->
   inputs <> [] /\ weights_ L = [] /\ h' = h /\ outputs' = outputs) /\
  (s = kInferFailedBiasParameterError ->
   inputs <> [] /\ weights_ L <> [] /\ use_bias_ L = true /\
   length (bias_ L) <> length (weights_ L) /\ h' = h /\ outputs' = outputs).
Proof.
  unfold Forward.
  destruct (decide (inputs = [])) as [Hi|Hi].
  { rewrite (bool_decide_eq_true_2 _ Hi). intros [= <- <- <-]. by repeat split. }
  rewrite (bool_decide_eq_false_2 _ Hi).
  destruct (decide (weights_ L = [])) as [Hw|Hw].
  { rewrite (bool_decide_eq_true_2 _ Hw). intros [= <- <- <-]. by repeat split. }
  rewrite (bool_decide_eq_false_2 _ Hw).
  destruct (use_bias_ L && negb (length (bias_ L) =? length (weights_ L))%nat) eqn:Hb.
  { intros [= <- <- <-]. apply andb_true_iff in Hb as [Hu Hlen].
    apply negb_true_iff, Nat.eqb_neq in Hlen. by repeat split. }
  intros Hrun. apply forward_batch_status in Hrun as [->|[->| ->]]; by repeat split.
Qed.

Lemma Forward_entry_statuses_bias :
  [Some 0%nat] <> [] /\ weights_ layer_bias_missing <> [] /\
  use_bias_ layer_bias_missing = true /\
  length (bias_ layer_bias_missing) <> length (weights_ layer_bias_missing) /\
  store_5x5 = store_5x5 /\ [Some 7%nat] = [Some 7%nat].
Proof.
  apply (Forward_entry_statuses 0 layer_bias_missing store_5x5 [Some 0%nat]
           [Some 7%nat] kInferFailedBiasParameterError store_5x5 [Some 7%nat]);
    reflexivity.
Defined.

Lemma forward_batch_count fuel L inputs idx : forall h outputs s h' outputs',
  forward_batch fuel L inputs idx h outputs = Finished s h' outputs' ->
  exists new,
    outputs' = outputs ++ new /\
    new = Some <$> seq (length h) (length new) /\
    length h' = (length h + length new)%nat /\
    (s = kInferSuccess -> length new = length idx) /\
    (s <> kInferSuccess -> (length new < length idx)%nat).
Proof.
  induction idx as [|i rest IH]; intros h outputs s h' outputs'; cbn.
  - intros [= <- <- <-]. exists []. rewrite app_nil_r. cbn. repeat split; try done.
  - destruct (inputs !! Z.to_nat i) as [input|]; [|done].
    destruct (forward_item fuel L h input) as [h1 out|s1 h1|f] eqn:Hitem; [| |done].
    + destruct (forward_item_store fuel L h input h1) as (l & t & -> & Hl & ->).
      { by rewrite Hitem. }
      intros (new & -> & Hnew & Hlen & Hok & Hko)%IH.
      rewrite length_app, padded_store_length in Hnew, Hlen. cbn in Hnew, Hlen.
      exists (Some (length h) :: new). rewrite padded_store_length, <- app_assoc. cbn.
      split; [done|]. split; [|split; [lia|split]].
      * f_equal. rewrite Hnew at 1. f_equal. f_equal. lia.
      * intros Hs. by rewrite Hok.
      * intros Hs. specialize (Hko Hs). lia.
    + destruct (forward_item_store fuel L h input h1) as (l & t & -> & Hl & ->).
      { by rewrite Hitem. }
      intros [= <- <- <-]. exists []. rewrite app_nil_r, padded_store_length. cbn.
      repeat split; try done; try lia.
      intros ->. apply forward_item_return in Hitem. by destruct Hitem.
Qed.

(** X3: on a batch of N inputs, N below 2^32, a call that returns success
    has appended exactly N elements to outputs, and a call that returns
    any other status fewer than N (none for an empty batch). *)
Theorem Forward_output_count fuel L h inputs outputs s h' outputs' :
  Z.of_nat (length inputs) < U32.modulus ->
  Forward fuel L h inputs outputs = Finished s h' outputs' ->
  exists new,
    outputs' = outputs ++ new /\
    (s = kInferSuccess -> length new = length inputs) /\
    (s <> kInferSuccess -> inputs = [] \/ (length new < length inputs)%nat).
Proof.
  intros Hn. unfold Forward.
  destruct (decide (inputs = [])) as [Hi|Hi].
  { rewrite (bool_decide_eq_true_2 _ Hi). intros [= <- <- <-].
    exists []. rewrite app_nil_r. split; [done|]. split; [done|]. by left. }
  rewrite (bool_decide_eq_false_2 _ Hi).
  assert (0 < length inputs)%nat as Hpos by (destruct inputs; [done | cbn; lia]).
  destruct (bool_decide (weights_ L = [])).
  { intros [= <- <- <-]. exists []. rewrite app_nil_r.
    split; [done|]. split; [done|]. by right. }
  destruct (use_bias_ L && _).
  { intros [= <- <- <-]. exists []. rewrite app_nil_r.
    split; [done|]. split; [done|]. by right. }
  intros (new & -> & _ & _ & Hok & Hko)%forward_batch_count.
  rewrite length_seqZ, wrap_small, Nat2Z.id in Hok, Hko by lia.
  exists new. split; [done|]. split; [done|]. intros Hs. right. by apply Hko.
Qed.

Lemma Forward_output_count_batch :
  exists new,
    [Some 3%nat] = [] ++ new /\
    (kInferFailedChannelParameterError = kInferSuccess -> length new = 2%nat) /\
    (kInferFailedChannelParameterError <> kInferSuccess ->
     [Some 0%nat; Some 2%nat] = [] \/ (length new < 2)%nat).
Proof.
  eapply (Forward_output_count 1 layer_plain store_batch [Some 0%nat; Some 2%nat] []);
    [by vm_compute | reflexivity].
Defined.

Lemma forward_item_done fuel L h input h1 out :
  forward_item fuel L h input = ItemDone h1 out -> tensor_empty out = false.
Proof.
  unfold forward_item. destruct input as [l|]; [|done].
  destruct (h !! l) as [t|]; [|done].
  destruct (padded_store L h l t !! l) as [t'|]; [|done].
  destruct (for_count _ _ _) as [[o|]|s'|f]; try done.
  destruct (tensor_empty o) eqn:He; [done|]. by intros [= _ <-].
Qed.

Lemma forward_batch_fresh fuel L inputs idx : forall h outputs s h' outputs',
  (forall l, Some l ∈ inputs -> (l < length h)%nat) ->
  forward_batch fuel L inputs idx h outputs = Finished s h' outputs' ->
  forall lo, (length h <= lo < length h')%nat ->
    exists o, h' !! lo = Some o /\ tensor_empty o = false.
Proof.
  induction idx as [|i rest IH]; intros h outputs s h' outputs' Hval; cbn.
  - intros [= <- <- <-] lo Hlo. lia.
  - destruct (inputs !! Z.to_nat i) as [input|]; [|done].
    destruct (forward_item fuel L h input) as [h1 out|s1 h1|f] eqn:Hitem; [| |done].
    + destruct (forward_item_store fuel L h input h1) as (l & t & -> & Hl & ->).
      { by rewrite Hitem. }
      apply forward_item_done in Hitem.
      intros Hrun lo Hlo.
      destruct (decide (lo = length h)) as [->|Hne].
      * apply forward_batch_frame in Hrun as (_ & _ & Hfr & _).
        exists out. split; [|done]. rewrite Hfr.
        -- rewrite <- (padded_store_length L h l t). by rewrite list_lookup_middle.
        -- rewrite length_app, padded_store_length. cbn. lia.
        -- intros Hin. apply Hval in Hin. lia.
      * eapply IH; [|exact Hrun|].
        -- intros l' Hl'. apply Hval in Hl'.
           rewrite length_app, padded_store_length. lia.
        -- rewrite length_app, padded_store_length. cbn. lia.
    + destruct (forward_item_store fuel L h input h1) as (l & t & -> & Hl & ->).
      { by rewrite Hitem. }
      intros [= <- <- <-] lo Hlo. rewrite padded_store_length in Hlo. lia.
Qed.

(** X4: each call makes its own output tensors. When the inputs are
    tensors of the store, the elements a call appends to outputs are the
    locations right after the end of that store, one after the other: no
    two are the same, none is a tensor the caller had, and each leads to
    a tensor that is not empty. *)
Theorem Forward_outputs_fresh fuel L h inputs outputs s h' outputs' :
  (forall l, Some l ∈ inputs -> (l < length h)%nat) ->
  Forward fuel L h inputs outputs = Finished s h' outputs' ->
  exists new,
    outputs' = outputs ++ new /\
    new = Some <$> seq (length h) (length new) /\
    length h' = (length h + length new)%nat /\
    forall lo, (length h <= lo < length h')%nat ->
      exists o, h' !! lo = Some o /\ tensor_empty o = false.
Proof.
  intros Hval. unfold Forward.
  assert (forall (outs : list ptr), exists new : list ptr,
    outs = outs ++ new /\ new = Some <$> seq (length h) (length new) /\
    length h = (length h + length new)%nat /\
    forall lo, (length h <= lo < length h)%nat ->
      exists o, h !! lo = Some o /\ tensor_empty o = false) as Hnone.
  { intros outs. exists []. rewrite app_nil_r. cbn. repeat split; try done; lia. }
  repeat case_match; try (intros [= <- <- <-]; apply Hnone).
  intros Hrun.
  pose proof (forward_batch_fresh _ _ _ _ _ _ _ _ _ Hval Hrun) as Hfresh.
  apply forward_batch_count in Hrun as (new & -> & Hnew & Hlen & _).
  exists new. done.
Qed.

Lemma Forward_outputs_fresh_5x5 :
  exists h' new,
    Forward 5 layer_plain store_5x5 [Some 0%nat] [Some 0%nat] =
      Finished kInferSuccess h' ([Some 0%nat] ++ new) /\
    new = Some <$> seq 2 (length new) /\
    length h' = (2 + length new)%nat.
Proof.
  destruct (Forward_valid 5 layer_plain store_5x5 [Some 0%nat] [Some 0%nat] 1 3 3
              valid_call_5x5) as (h' & new0 & Hrun & _).
  destruct (Forward_outputs_fresh 5 layer_plain store_5x5 [Some 0%nat] [Some 0%nat]
              kInferSuccess h' ([Some 0%nat] ++ new0)) as (new & Heq & Hnew & Hlen & _).
  - intros l [= ->]%list_elem_of_singleton. cbn. lia.
  - exact Hrun.
  - exists h', new. rewrite <- Heq. split; [exact Hrun|]. split; [exact Hnew | exact Hlen].
Defined.

(** X5: a call writes to the store only at its inputs and past its end: a
    tensor of the store that is not among the inputs is the same after
    the call, whatever the status; and a layer without padding leaves
    every tensor of the store as it was. *)
Theorem Forward_leaves_other_tensors fuel L h inputs outputs s h' outputs' l t :
  Forward fuel L h inputs outputs = Finished s h' outputs' ->
  h !! l = Some t ->
  padding_ L <= 0 \/ (Some l ∉ inputs) ->
  h' !! l = Some t.
Proof.
  intros Hrun Hl Hwhy. apply Forward_frame in Hrun as [_ Hfr]. by apply Hfr.
Qed.

Lemma Forward_leaves_other_tensors_batch :
  exists s h' outputs',
    Forward 1 layer_plain store_batch [Some 0%nat; Some 2%nat] [] =
      Finished s h' outputs' /\
    h' !! 1%nat = Some (constant 1 1 1 2%float).
Proof.
  eexists _, _, _. split; [reflexivity|].
  eapply (Forward_leaves_other_tensors 1 layer_plain store_batch
            [Some 0%nat; Some 2%nat] []); [reflexivity | reflexivity |].
  right. intros Hin.
  repeat (apply elem_of_cons in Hin as [Hin|Hin]; [discriminate|]).
  by apply elem_of_nil in Hin.
Defined.

(** ** A batch and its parts *)

Lemma forward_list_app fuel L a b : forall h outputs,
  forward_list fuel L (a ++ b) h outputs =
  continue_with (forward_list fuel L a h outputs)
                (fun h1 outputs1 => forward_list fuel L b h1 outputs1).
Proof.
  induction a as [|input a IH]; intros h outputs; cbn; [done|].
  destruct (forward_item fuel L h input) as [h1 out|s1 h1|f] eqn:Hitem; cbn.
  - apply IH.
  - apply forward_item_return in Hitem. by destruct Hitem as [-> | ->].
  - done.
Qed.

(** X6: a batch is worked through item by item, in order: for two
    non-empty batches of fewer than 2^32 items together, one call on
    their concatenation ends as a call on the first one does, followed,
    when that one succeeds, by a call on the second one on the store and
    the outputs the first call leaves. *)
Theorem Forward_app fuel L h a b outputs :
  a <> [] -> b <> [] -> Z.of_nat (length (a ++ b)) < U32.modulus ->
  Forward fuel L h (a ++ b) outputs =
  continue_with (Forward fuel L h a outputs)
                (fun h1 outputs1 => Forward fuel L h1 b outputs1).
Proof.
  intros Ha Hb Hn. rewrite length_app in Hn.
  assert (a ++ b <> []) as Hab by (destruct a; done).
  destruct (decide (weights_ L = [])) as [Hw|Hw].
  { unfold Forward. rewrite (bool_decide_eq_false_2 _ Hab), (bool_decide_eq_false_2 _ Ha).
    by rewrite (bool_decide_eq_true_2 _ Hw). }
  destruct (use_bias_ L && negb (length (bias_ L) =? length (weights_ L))%nat) eqn:Hbias.
  { unfold Forward. rewrite (bool_decide_eq_false_2 _ Hab), (bool_decide_eq_false_2 _ Ha).
    by rewrite (bool_decide_eq_false_2 _ Hw), Hbias. }
  assert (use_bias_ L = true -> length (bias_ L) = length (weights_ L)) as Hlen.
  { intros Hu. rewrite Hu in Hbias. cbn in Hbias.
    by apply negb_false_iff, Nat.eqb_eq in Hbias. }
  rewrite !Forward_list; try done; try (rewrite ?length_app; lia).
  rewrite forward_list_app.
  destruct (forward_list fuel L a h outputs) as [[] h1 outputs1|f]; cbn; try done.
  rewrite Forward_list; try done. lia.
Qed.

Lemma Forward_app_batch :
  Forward 1 layer_plain store_batch ([Some 0%nat] ++ [Some 2%nat]) [] =
  continue_with (Forward 1 layer_plain store_batch [Some 0%nat] [])
                (fun h1 outputs1 => Forward 1 layer_plain h1 [Some 2%nat] outputs1).
Proof.
  apply (Forward_app 1 layer_plain store_batch [Some 0%nat] [Some 2%nat] []);
    [done | done | by vm_compute].
Defined.

(** ** The bias of a layer that uses none *)

Lemma for_each_ext {R S} idx (f g : Z -> S -> step R S) s :
  (forall i s', f i s' = g i s') -> for_each idx f s = for_each idx g s.
Proof.
  intros Hfg. revert s. induction idx as [|i rest IH]; intros s; cbn; [done|].
  rewrite Hfg. destruct (g i s); cbn; [apply IH | done | done].
Qed.

Lemma forward_kernel_with_bias fuel L bs h input kc k od :
  use_bias_ L = false ->
  forward_kernel fuel (with_bias L bs) h input kc k od =
  forward_kernel fuel L h input kc k od.
Proof.
  intros Hu. unfold forward_kernel, convolve, with_bias. cbn. rewrite Hu.
  by rewrite !andb_false_r.
Qed.

Lemma forward_item_with_bias fuel L bs h input :
  use_bias_ L = false ->
  forward_item fuel (with_bias L bs) h input = forward_item fuel L h input.
Proof.
  intros Hu. unfold forward_item. destruct input as [l|]; [|done].
  destruct (h !! l) as [t|]; [|done].
  change (padded_store (with_bias L bs) h l t) with (padded_store L h l t).
  destruct (padded_store L h l t !! l) as [t'|]; [|done].
  change (weights_ (with_bias L bs)) with (weights_ L).
  unfold for_count.
  rewrite (for_each_ext _ _ (forward_kernel fuel L (padded_store L h l t) t'
             (U32.wrap (Z.of_nat (length (weights_ L)))))); [done|].
  intros i od. by apply forward_kernel_with_bias.
Qed.

Lemma forward_batch_with_bias fuel L bs inputs idx : forall h outputs,
  use_bias_ L = false ->
  forward_batch fuel (with_bias L bs) inputs idx h outputs =
  forward_batch fuel L inputs idx h outputs.
Proof.
  induction idx as [|i rest IH]; intros h outputs Hu; cbn; [done|].
  destruct (inputs !! Z.to_nat i) as [input|]; [|done].
  rewrite forward_item_with_bias by done.
  destruct (forward_item fuel L h input); try done. by apply IH.
Qed.

(** X7: a layer with use_bias unset never looks at its bias tensors:
    whatever its bias sequence holds (nothing, null pointers, tensors of
    any shape), every call ends the same way. *)
Theorem Forward_without_bias fuel L bs h inputs outputs :
  use_bias_ L = false ->
  Forward fuel (with_bias L bs) h inputs outputs = Forward fuel L h inputs outputs.
Proof.
  intros Hu. unfold Forward.
  change (weights_ (with_bias L bs)) with (weights_ L).
  change (use_bias_ (with_bias L bs)) with (use_bias_ L). rewrite Hu. cbn.
  repeat case_match; try done. by apply forward_batch_with_bias.
Qed.

Lemma Forward_without_bias_5x5 :
  Forward 5 (with_bias layer_plain [None; Some 9%nat]) store_5x5 [Some 0%nat] [] =
  Forward 5 layer_plain store_5x5 [Some 0%nat] [].
Proof. apply (Forward_without_bias 5 layer_plain [None; Some 9%nat]). reflexivity. Defined.

(** ** What gets no status *)

Lemma padded_store_self L h l t :
  h !! l = Some t -> is_Some (padded_store L h l t !! l).
Proof.
  intros Hl. unfold padded_store. case_match; [|by eexists].
  eexists. apply list_lookup_insert_eq. by eapply lookup_lt_Some.
Qed.

(** A fault of the first kernel on the first item is the fault of the call. *)
Lemma Forward_first_crash fuel L h inputs outputs l t rest input f :
  inputs = Some l :: rest -> Z.of_nat (length inputs) < U32.modulus ->
  weights_ L <> [] -> Z.of_nat (length (weights_ L)) < U32.modulus ->
  (use_bias_ L = true -> length (bias_ L) = length (weights_ L)) ->
  h !! l = Some t -> padded_store L h l t !! l = Some input ->
  forward_kernel fuel L (padded_store L h l t) input
    (U32.wrap (Z.of_nat (length (weights_ L)))) 0 None = Crash f ->
  Forward fuel L h inputs outputs = Aborted f.
Proof.
  intros Hin Hn Hw Hkc Hb Hl Hl1 Hk. unfold Forward.
  rewrite !bool_decide_eq_false_2 by (done || by rewrite Hin).
  replace (use_bias_ L && _) with false; cycle 1.
  { symmetry. destruct (use_bias_ L); [|done].
    rewrite (Hb eq_refl), Nat.eqb_refl. done. }
  rewrite seqZ_head by (apply wrap_length_pos; [by rewrite Hin | done]).
  cbn [forward_batch]. rewrite Hin.
  change ((Some l :: rest) !! Z.to_nat 0) with (Some (Some l)). cbv iota.
  unfold forward_item. rewrite Hl, Hl1.
  unfold for_count. rewrite seqZ_head by (by apply wrap_length_pos).
  cbn [for_each]. rewrite Hk. done.
Qed.

(** X8: a stride of zero is not reported by any status. A call that gets
    past the entry checks, with a first input and a first kernel that are
    tensors of the store, divides by the stride in computing the output
    size and stops there. *)
Theorem Forward_zero_stride fuel L h inputs outputs l rest t lk ws kernel :
  inputs = Some l :: rest -> Z.of_nat (length inputs) < U32.modulus ->
  weights_ L = Some lk :: ws -> Z.of_nat (length (weights_ L)) < U32.modulus ->
  (use_bias_ L = true -> length (bias_ L) = length (weights_ L)) ->
  h !! l = Some t -> padded_store L h l t !! lk = Some kernel ->
  stride_ L = 0 ->
  Forward fuel L h inputs outputs = Aborted DivByZero.
Proof.
  intros Hin Hn Hws Hkc Hb Hl Hlk Hs.
  destruct (padded_store_self L h l t Hl) as [input Hl1].
  assert (weights_ L !! Z.to_nat 0 = Some (Some lk)) as Hk by (by rewrite Hws).
  eapply Forward_first_crash; try done; [by rewrite Hws|].
  unfold forward_kernel. rewrite Hk. cbn. rewrite Hlk. cbn. by rewrite Hs.
Qed.

Lemma Forward_zero_stride_5x5 :
  Forward 5 layer_stride_0 store_5x5 [Some 0%nat] [] = Aborted DivByZero.
Proof.
  apply (Forward_zero_stride 5 layer_stride_0 store_5x5 [Some 0%nat] [] 0%nat []
           (constant 1 5 5 1%float) 1%nat [] (constant 1 3 3 1%float));
    first [reflexivity | by vm_compute | done].
Defined.

(** ** When the output-size status is given *)

Lemma computed_output_nonpositive stride input kernel :
  1 <= stride < U32.modulus ->
  0 <= input < U32.modulus -> 0 <= kernel < U32.modulus ->
  computed_output stride input kernel <= 0 <->
  stride = 1 /\ kernel = U32.add input 1.
Proof.
  intros Hs Hi Hk. pose proof modulus_eq as Hm.
  unfold computed_output, U32.add, U32.sub, U32.div, U32.wrap.
  set (d := (input - kernel) mod U32.modulus).
  assert (0 <= d < U32.modulus) as Hd by (apply Z.mod_pos_bound; lia).
  assert (0 <= d / stride <= d) as Hq.
  { split; [apply Z.div_pos; lia | apply div_below; lia]. }
  pose proof (Z.mod_pos_bound (d / stride + 1) U32.modulus ltac:(lia)) as Hc.
  split.
  - intros Hz.
    assert (d / stride = U32.modulus - 1) as Hq1.
    { destruct (Z.eq_dec (d / stride) (U32.modulus - 1)) as [|Hne]; [done|].
      rewrite Z.mod_small in Hz by lia. lia. }
    assert (stride = 1) as ->.
    { destruct (Z.eq_dec stride 1) as [|Hne]; [done|].
      assert (d / stride < d) by (apply Z.div_lt; lia). lia. }
    split; [done|]. rewrite Z.div_1_r in Hq1. subst d.
    destruct (Z.lt_ge_cases input kernel) as [Hlt|Hge].
    + rewrite <- (Z.mod_add _ 1) in Hq1 by lia.
      rewrite Z.mod_small in Hq1 by lia.
      rewrite Z.mod_small by lia. lia.
    + rewrite Z.mod_small in Hq1 by lia.
      assert (input = U32.modulus - 1 /\ kernel = 0) as [-> ->] by lia.
      rewrite Hm. reflexivity.
  - intros [-> ->]. subst d. rewrite Z.div_1_r.
    destruct (Z.eq_dec input (U32.modulus - 1)) as [->|Hne].
    + rewrite Hm. by vm_compute.
    + rewrite (Z.mod_small (input + 1)) by lia.
      replace (input - (input + 1)) with (-1) by lia.
      rewrite Hm. by vm_compute.
Qed.

Lemma forward_kernel_size fuel L h input kc k od :
  forward_kernel fuel L h input kc k od = Return kInferFailedOutputSizeError ->
  exists lk kernel,
    weights_ L !! Z.to_nat k = Some (Some lk) /\ h !! lk = Some kernel /\
    stride_ L <> 0 /\
    (computed_output (stride_ L) (rows input) (rows kernel) <= 0 \/
     computed_output (stride_ L) (cols input) (cols kernel) <= 0).
Proof.
  unfold forward_kernel.
  destruct (weights_ L !! Z.to_nat k) as [[lk|]|]; cbn; try done.
  destruct (h !! lk) as [kernel|] eqn:Hlk; cbn; [|done].
  destruct (Z.eqb_spec (stride_ L) 0) as [|Hs]; cbn; [done|].
  destruct (_ || _) eqn:Hsz.
  - intros _. exists lk, kernel. apply orb_true_iff in Hsz.
    rewrite !Z.leb_le in Hsz. done.
  - destruct (negb _); [done|].
    intros Hc. exfalso. revert Hc. apply (returns_in_convolve (fun _ => False)).
Qed.

Lemma forward_item_size fuel L h input h1 :
  forward_item fuel L h input = ItemReturn kInferFailedOutputSizeError h1 ->
  exists l t k lk kernel,
    input = Some l /\ h1 !! l = Some t /\
    weights_ L !! k = Some (Some lk) /\ h1 !! lk = Some kernel /\
    stride_ L <> 0 /\
    (computed_output (stride_ L) (rows t) (rows kernel) <= 0 \/
     computed_output (stride_ L) (cols t) (cols kernel) <= 0).
Proof.
  unfold forward_item. destruct input as [l|]; [|done].
  destruct (h !! l) as [t|]; [|done].
  destruct (padded_store L h l t !! l) as [t'|] eqn:Hl'; [|done].
  destruct (for_count _ _ _) as [[out|]|s'|f] eqn:Hk; try done.
  - by destruct (tensor_empty out).
  - intros [= -> <-]. apply for_each_return_inv in Hk as (k & od & _ & Hk).
    apply forward_kernel_size in Hk as (lk & kernel & Hw & Hlk & Hs & Hsz).
    exists l, t', (Z.to_nat k), lk, kernel. done.
Qed.

Lemma forward_batch_size fuel L inputs idx : forall h outputs h' outputs',
  forward_batch fuel L inputs idx h outputs =
    Finished kInferFailedOutputSizeError h' outputs' ->
  exists new i l t k lk kernel,
    outputs' = outputs ++ new /\ idx !! length new = Some i /\
    inputs !! Z.to_nat i = Some (Some l) /\ h' !! l = Some t /\
    weights_ L !! k = Some (Some lk) /\ h' !! lk = Some kernel /\
    stride_ L <> 0 /\
    (computed_output (stride_ L) (rows t) (rows kernel) <= 0 \/
     computed_output (stride_ L) (cols t) (cols kernel) <= 0).
Proof.
  induction idx as [|i rest IH]; intros h outputs h' outputs'; cbn; [done|].
  destruct (inputs !! Z.to_nat i) as [input|] eqn:Hi; [|done].
  destruct (forward_item fuel L h input) as [h1 out|s1 h1|f] eqn:Hitem; [| |done].
  - intros (new & j & l & t & k & lk & kernel & -> & Hj & Hrest)%IH.
    exists (Some (length h1) :: new), j, l, t, k, lk, kernel.
    rewrite <- app_assoc. done.
  - intros [= -> <- <-].
    apply forward_item_size in Hitem as (l & t & k & lk & kernel & -> & Hrest).
    exists [], i, l, t, k, lk, kernel. rewrite app_nil_r. done.
Qed.

(** X9: the output-size status is given in one case only. When a call
    returns it, the stride is 1 and, for the first input item without an
    output, one of the kernels is exactly one row higher or one column
    wider (modulo 2^32) than the item as padded; no other input, however
    small against the kernel, gets this status. *)
Theorem Forward_size_status fuel L h inputs outputs h' outputs' :
  0 <= stride_ L < U32.modulus ->
  Forward fuel L h inputs outputs =
    Finished kInferFailedOutputSizeError h' outputs' ->
  stride_ L = 1 /\
  exists new l t k lk kernel,
    outputs' = outputs ++ new /\
    inputs !! length new = Some (Some l) /\ h' !! l = Some t /\
    weights_ L !! k = Some (Some lk) /\ h' !! lk = Some kernel /\
    (rows kernel = U32.add (rows t) 1 \/ cols kernel = U32.add (cols t) 1).
Proof.
  intros Hs. unfold Forward. repeat case_match; try done.
  intros (new & i & l & t & k & lk & kernel & -> & Hi & Hin & Hl & Hk & Hlk & Hne & Hsz)
    %forward_batch_size.
  apply lookup_seqZ in Hi as [-> _].
  replace (Z.to_nat (0 + Z.of_nat (length new))) with (length new) in Hin by lia.
  assert (forall a b, computed_output (stride_ L) (U32.wrap a) (U32.wrap b) <= 0 ->
                      stride_ L = 1 /\ U32.wrap b = U32.add (U32.wrap a) 1) as Hzero.
  { intros a b. apply computed_output_nonpositive; [lia | |];
      apply Z.mod_pos_bound; done. }
  destruct Hsz as [Hsz|Hsz]; apply Hzero in Hsz as [Hone Hk1];
    (split; [done|]); exists new, l, t, k, lk, kernel; tauto.
Qed.

Lemma Forward_size_status_two_channels :
  stride_ layer_plain = 1 /\
  exists (new : list ptr) l t k lk kernel,
    [] = [] ++ new /\
    [Some 0%nat] !! length new = Some (Some l) /\ store_two_channels !! l = Some t /\
    weights_ layer_plain !! k = Some (Some lk) /\
    store_two_channels !! lk = Some kernel /\
    (rows kernel = U32.add (rows t) 1 \/ cols kernel = U32.add (cols t) 1).
Proof.
  apply (Forward_size_status 1 layer_plain store_two_channels [Some 0%nat] []);
    [by vm_compute | reflexivity].
Defined.

Lemma computed_output_zero_iff_2x2 :
  computed_output 1 1 2 = 0 <-> 1 = 1 /\ 2 = 1 + 1.
Proof. apply (computed_output_zero_iff 1 1 2); by vm_compute. Defined.

(** ** What success tells *)

Lemma same_channels_refl h : same_channels h h.
Proof. intros l t Hl. by exists t. Qed.

Lemma same_channels_trans h1 h2 h3 :
  same_channels h1 h2 -> same_channels h2 h3 -> same_channels h1 h3.
Proof.
  intros H12 H23 l t Hl. destruct (H12 l t Hl) as (t2 & Hl2 & Hc2).
  destruct (H23 l t2 Hl2) as (t3 & Hl3 & Hc3). exists t3. split; [done | congruence].
Qed.

Lemma same_channels_padded L h l t :
  h !! l = Some t -> same_channels h (padded_store L h l t).
Proof.
  intros Hl l' t' Hl'. unfold padded_store. case_match; [|by exists t'].
  destruct (decide (l' = l)) as [->|Hne].
  - rewrite list_lookup_insert_eq by (by eapply lookup_lt_Some).
    eexists. split; [done|]. cbn. congruence.
  - rewrite list_lookup_insert_ne by done. by exists t'.
Qed.

Lemma same_channels_app h ext : same_channels h (h ++ ext).
Proof. intros l t Hl. exists t. split; [by apply lookup_app_l_Some | done]. Qed.

Lemma for_each_next_inv {R S} idx (body : Z -> S -> step R S) s s' :
  for_each idx body s = Next s' ->
  forall i, i ∈ idx -> exists s0 s1, body i s0 = Next s1.
Proof.
  revert s. induction idx as [|j rest IH]; intros s; cbn.
  - intros _ i Hi. by apply elem_of_nil in Hi.
  - destruct (body j s) as [s1|st|f] eqn:Hb; cbn; [|done|done].
    intros Hrest i [->|Hi]%elem_of_cons; [eauto|]. by eapply IH.
Qed.

Lemma forward_kernel_next fuel L h input kc k od od' :
  forward_kernel fuel L h input kc k od = Next od' ->
  exists lk kernel,
    weights_ L !! Z.to_nat k = Some (Some lk) /\ h !! lk = Some kernel /\
    stride_ L <> 0 /\ channels kernel = channels input.
Proof.
  unfold forward_kernel.
  destruct (weights_ L !! Z.to_nat k) as [[lk|]|]; cbn; try done.
  destruct (h !! lk) as [kernel|] eqn:Hlk; cbn; [|done].
  destruct (Z.eqb_spec (stride_ L) 0) as [|Hs]; cbn; [done|].
  destruct (_ || _); [done|].
  destruct (Z.eqb_spec (channels kernel) (channels input)) as [Heq|]; cbn; [|done].
  intros _. by exists lk, kernel.
Qed.

(** What an item that got its output has passed. *)
Lemma forward_item_done_checks fuel L h input h1 out :
  forward_item fuel L h input = ItemDone h1 out ->
  exists l t t1,
    input = Some l /\ h !! l = Some t /\ h1 = padded_store L h l t /\
    h1 !! l = Some t1 /\
    forall k, 0 <= k < U32.wrap (Z.of_nat (length (weights_ L))) ->
      exists lk kernel,
        weights_ L !! Z.to_nat k = Some (Some lk) /\ h1 !! lk = Some kernel /\
        stride_ L <> 0 /\ channels kernel = channels t1.
Proof.
  unfold forward_item. destruct input as [l|]; [|done].
  destruct (h !! l) as [t|] eqn:Hl; [|done].
  destruct (padded_store L h l t !! l) as [t1|] eqn:Hl1; [|done].
  destruct (for_count _ _ _) as [[o|]|s'|f] eqn:Hk; try done.
  destruct (tensor_empty o); [done|]. intros [= <- <-].
  exists l, t, t1. split; [done|]. split; [done|]. split; [done|]. split; [done|].
  intros k Hk'. unfold for_count in Hk.
  destruct (for_each_next_inv _ _ _ _ Hk k) as (od & od' & Hker).
  { apply elem_of_seqZ. lia. }
  by eapply forward_kernel_next.
Qed.

Lemma forward_batch_success fuel L inputs idx : forall h outputs h' outputs',
  forward_batch fuel L inputs idx h outputs = Finished kInferSuccess h' outputs' ->
  forall i, i ∈ idx ->
    exists l hi ti,
      inputs !! Z.to_nat i = Some (Some l) /\ same_channels h hi /\
      hi !! l = Some ti /\
      forall k, 0 <= k < U32.wrap (Z.of_nat (length (weights_ L))) ->
        exists lk kernel,
          weights_ L !! Z.to_nat k = Some (Some lk) /\ hi !! lk = Some kernel /\
          stride_ L <> 0 /\ channels kernel = channels ti.
Proof.
  induction idx as [|j rest IH]; intros h outputs h' outputs'; cbn.
  - intros _ i Hi. by apply elem_of_nil in Hi.
  - destruct (inputs !! Z.to_nat j) as [input|] eqn:Hj; [|done].
    destruct (forward_item fuel L h input) as [h1 out|s1 h1|f] eqn:Hitem; [| |done].
    + apply forward_item_done_checks in Hitem
        as (l & t & t1 & -> & Hl & -> & Hl1 & Hker).
      intros Hrun i [->|Hi]%elem_of_cons.
      * exists l, (padded_store L h l t), t1. split; [done|].
        split; [by apply same_channels_padded | done].
      * destruct (IH _ _ _ _ Hrun i Hi) as (l' & hi & ti & Hin & Hsame & Hrest).
        exists l', hi, ti. split; [done|]. split; [|done].
        eapply same_channels_trans; [by apply same_channels_padded|].
        eapply same_channels_trans; [apply same_channels_app | exact Hsame].
    + intros [= Hs _ _]. apply forward_item_return in Hitem.
      rewrite Hs in Hitem. by destruct Hitem.
Qed.

(** X10: success vouches for the inputs. When a call on fewer than 2^32
    inputs, by a layer of fewer than 2^32 kernels, returns success, the
    stride is not zero, no input and no weight pointer is null, and every
    input tensor has the channel count of every kernel. *)
Theorem Forward_success_channels fuel L h inputs outputs h' outputs' :
  Z.of_nat (length inputs) < U32.modulus ->
  Z.of_nat (length (weights_ L)) < U32.modulus ->
  Forward fuel L h inputs outputs = Finished kInferSuccess h' outputs' ->
  stride_ L <> 0 /\ (None ∉ inputs) /\ (None ∉ weights_ L) /\
  forall l t lk kernel,
    Some l ∈ inputs -> Some lk ∈ weights_ L ->
    h !! l = Some t -> h !! lk = Some kernel ->
    channels kernel = channels t.
Proof.
  intros Hn Hkc. unfold Forward.
  destruct (decide (inputs = [])) as [Hi|Hi];
    [by rewrite (bool_decide_eq_true_2 _ Hi)|].
  rewrite (bool_decide_eq_false_2 _ Hi).
  destruct (decide (weights_ L = [])) as [Hw|Hw];
    [by rewrite (bool_decide_eq_true_2 _ Hw)|].
  rewrite (bool_decide_eq_false_2 _ Hw).
  destruct (use_bias_ L && _); [done|].
  rewrite !wrap_small by lia. intros Hrun.
  pose proof (forward_batch_success _ _ _ _ _ _ _ _ Hrun) as Hall.
  rewrite wrap_small in Hall by lia.
  assert (forall p, p ∈ inputs ->
            exists l hi ti, p = Some l /\ same_channels h hi /\ hi !! l = Some ti /\
              forall q, q ∈ weights_ L ->
                exists lk kernel, q = Some lk /\ hi !! lk = Some kernel /\
                                  stride_ L <> 0 /\ channels kernel = channels ti)
    as Hitems.
  { intros p (i & Hp)%list_elem_of_lookup_1.
    destruct (Hall (Z.of_nat i)) as (l & hi & ti & Hin & Hsame & Hl & Hker).
    { apply elem_of_seqZ. pose proof (lookup_lt_Some _ _ _ Hp). lia. }
    rewrite Nat2Z.id, Hp in Hin. injection Hin as ->.
    exists l, hi, ti. repeat split; try done.
    intros q (k & Hq)%list_elem_of_lookup_1.
    destruct (Hker (Z.of_nat k)) as (lk & kernel & Hw' & Hrest).
    { pose proof (lookup_lt_Some _ _ _ Hq). lia. }
    rewrite Nat2Z.id, Hq in Hw'. injection Hw' as ->. by exists lk, kernel. }
  destruct inputs as [|p0 inputs0]; [done|].
  destruct (weights_ L) as [|q0 ws0] eqn:Hws; [done|].
  split; [|split; [|split]].
  - destruct (Hitems p0) as (l & hi & ti & _ & _ & _ & Hker); [by left|].
    destruct (Hker q0) as (lk & kernel & _ & _ & Hs & _); [by left | done].
  - intros Hnone. by destruct (Hitems None Hnone) as (l & hi & ti & ? & _).
  - intros Hnone. destruct (Hitems p0) as (l & hi & ti & _ & _ & _ & Hker); [by left|].
    by destruct (Hker None Hnone) as (lk & kernel & ? & _).
  - intros l t lk kernel Hl Hlk Ht Hkt.
    destruct (Hitems (Some l) Hl) as (l' & hi & ti & [= <-] & Hsame & Hli & Hker).
    destruct (Hker (Some lk) Hlk) as (lk' & kernel' & [= <-] & Hlki & _ & Hch).
    destruct (Hsame l t Ht) as (ti' & Hli' & Hct).
    destruct (Hsame lk kernel Hkt) as (ki' & Hlki' & Hck).
    rewrite Hli in Hli'. rewrite Hlki in Hlki'.
    injection Hli' as <-. injection Hlki' as <-.
    unfold channels in *. congruence.
Qed.

Lemma Forward_success_channels_5x5 :
  stride_ layer_plain <> 0 /\ (None ∉ [Some 0%nat]) /\ (None ∉ weights_ layer_plain) /\
  forall l t lk kernel,
    Some l ∈ [Some 0%nat] -> Some lk ∈ weights_ layer_plain ->
    store_5x5 !! l = Some t -> store_5x5 !! lk = Some kernel ->
    channels kernel = channels t.
Proof.
  destruct (Forward_valid 5 layer_plain store_5x5 [Some 0%nat] [] 1 3 3
              valid_call_5x5) as (h' & new & Hrun & _).
  apply (Forward_success_channels 5 layer_plain store_5x5 [Some 0%nat] []
           h' ([] ++ new)); [by vm_compute | by vm_compute | exact Hrun].
Defined.

(** ** The tensors the constructor makes *)

Lemma ctor_step_fresh ic kh kw ub h0 acc :
  ctor_fresh h0 acc -> ctor_fresh h0 (ctor_step ic kh kw ub acc).
Proof.
  destruct acc as [[h ws] bs]. unfold ctor_step, ctor_fresh, make_shared.
  intros (Hlen & Hnd & Hall).
  assert (forall n, (length h <= n)%nat -> Some n ∉ ws ++ bs) as Hnew.
  { intros n Hn Hin. destruct (Hall _ Hin) as (l & [= <-] & Hl). lia. }
  destruct ub.
  - assert ((ws ++ [Some (length h)]) ++ bs ++ [Some (length (h ++ [Tensor_new ic kh kw]))]
            ≡ₚ Some (length (h ++ [Tensor_new ic kh kw])) :: Some (length h) :: ws ++ bs)
      as Hperm.
    { rewrite <- !app_assoc. cbn.
      rewrite <- Permutation_middle, (app_assoc ws bs), <- Permutation_cons_append.
      apply perm_swap. }
    rewrite !length_app. cbn. rewrite length_app in Hperm. cbn in Hperm.
    split; [lia|]. split.
    + rewrite Hperm. apply NoDup_cons. split.
      * intros [[= Heq]|Hin]%elem_of_cons; [lia|]. revert Hin. apply Hnew. lia.
      * apply NoDup_cons. split; [by apply Hnew | done].
    + intros q. rewrite Hperm. intros [->|[->|Hin]%elem_of_cons]%elem_of_cons.
      * eexists. split; [done|]. lia.
      * eexists. split; [done|]. lia.
      * destruct (Hall _ Hin) as (l & -> & Hl). exists l. split; [done|]. lia.
  - assert ((ws ++ [Some (length h)]) ++ bs ≡ₚ Some (length h) :: ws ++ bs) as Hperm.
    { rewrite <- !app_assoc. cbn. by rewrite <- Permutation_middle. }
    rewrite !length_app. cbn.
    split; [lia|]. split.
    + rewrite Hperm. apply NoDup_cons. split; [by apply Hnew | done].
    + intros q. rewrite Hperm. intros [->|Hin]%elem_of_cons.
      * eexists. split; [done|]. lia.
      * destruct (Hall _ Hin) as (l & -> & Hl). exists l. split; [done|]. lia.
Qed.

Lemma ctor_iter_fresh ic kh kw ub h0 n :
  ctor_fresh h0 (Nat.iter n (ctor_step ic kh kw ub) (h0, [], [])).
Proof.
  induction n as [|n IH].
  - cbn. split; [done|]. split; [constructor|]. intros q Hq. by apply elem_of_nil in Hq.
  - cbn [Nat.iter]. by apply ctor_step_fresh.
Qed.

Lemma ConvolutionLayer_new_locations oc ic kh kw p s ub h h' L :
  ConvolutionLayer_new oc ic kh kw p s ub h = (h', L) ->
  NoDup (weights_ L ++ bias_ L) /\
  forall q, q ∈ weights_ L ++ bias_ L ->
    exists l, q = Some l /\ (length h <= l < length h')%nat.
Proof.
  unfold ConvolutionLayer_new.
  pose proof (ctor_iter_fresh ic kh kw ub h (Z.to_nat oc)) as Hfresh.
  destruct (Nat.iter _ _ _) as [[h0 ws] bs]. intros [= <- <-]. cbn.
  by destruct Hfresh as (Hlen & Hnd & Hall).
Qed.

(** X11: the constructor makes the tensors of the layer anew. Its weight
    and bias pointers are not null, no two of them are the same tensor,
    and each leads past the end of the store the constructor started
    from: none is a tensor that existed before, so no caller's input
    from that store is one of the layer's tensors. *)
Theorem ConvolutionLayer_new_fresh output_channel in_channel kernel_h kernel_w
    padding stride use_bias h h' L :
  ConvolutionLayer_new output_channel in_channel kernel_h kernel_w
    padding stride use_bias h = (h', L) ->
  NoDup (weights_ L ++ bias_ L) /\
  (forall q, q ∈ weights_ L ++ bias_ L ->
     exists l, q = Some l /\ (length h <= l < length h')%nat) /\
  (forall inputs, (forall l, Some l ∈ inputs -> (l < length h)%nat) ->
     apart (weights_ L ++ bias_ L) inputs).
Proof.
  intros (Hnd & Hall)%ConvolutionLayer_new_locations.
  split; [done|]. split; [done|].
  intros inputs Hval l Hl Hin. destruct (Hall _ Hl) as (l' & [= <-] & Hl').
  apply Hval in Hin. lia.
Qed.

Lemma ConvolutionLayer_new_fresh_two_kernels :
  exists h' L,
    ConvolutionLayer_new 2 3 3 3 1 1 true store_batch = (h', L) /\
    NoDup (weights_ L ++ bias_ L) /\
    apart (weights_ L ++ bias_ L) [Some 0%nat; Some 2%nat].
Proof.
  eexists _, _. split; [reflexivity|].
  edestruct (ConvolutionLayer_new_fresh 2 3 3 3 1 1 true store_batch)
    as (Hnd & _ & Hap); [reflexivity|].
  split; [exact Hnd|]. apply Hap. intros l Hin.
  repeat (apply elem_of_cons in Hin as [Heq|Hin]; [injection Heq as ->; cbn; lia|]).
  by apply elem_of_nil in Hin.
Defined.

(** ** A layer fresh from the constructor, at work *)

Lemma ConvolutionLayer_new_built oc ic kh kw p s ub h h' L :
  0 <= oc ->
  ConvolutionLayer_new oc ic kh kw p s ub h = (h', L) ->
  layer_invariant oc ic kh kw ub L h' /\
  padding_ L = p /\ stride_ L = s /\ use_bias_ L = ub /\ (exists ext, h' = h ++ ext).
Proof.
  intros Hoc. unfold ConvolutionLayer_new.
  pose proof (ctor_iter_inv ic kh kw ub h (Z.to_nat oc)) as Hinv.
  destruct (Nat.iter _ _ _) as [[h0 ws] bs]. intros [= <- <-].
  destruct Hinv as (Hext & Hlen & Hws & Hbs). cbn.
  split; [|done]. unfold layer_invariant. cbn [weights_ bias_].
  split; [rewrite Hlen; lia|]. split; [done|].
  destruct ub; [|done]. destruct Hbs as [Hlb Hbs]. split; [congruence | done].
Qed.

(** X12: the constructor and Forward fit together. A layer straight from
    the constructor, with at least one kernel of at least 1x1 and a
    stride of at least 1, run on distinct input tensors of the store the
    constructor started from, each of in_channel channels and large
    enough for the kernel once padded, succeeds, and each output has
    output_channel channels and the height and width
    floor((size + 2 padding - kernel) / stride) + 1. *)
Theorem ConvolutionLayer_new_Forward fuel output_channel in_channel kernel_h kernel_w
    padding stride use_bias h h' L inputs outputs :
  1 <= output_channel < U32.modulus -> 0 <= in_channel < U32.modulus ->
  1 <= kernel_h -> 1 <= kernel_w -> 0 <= padding -> 1 <= stride ->
  ConvolutionLayer_new output_channel in_channel kernel_h kernel_w
    padding stride use_bias h = (h', L) ->
  inputs <> [] -> Z.of_nat (length inputs) < U32.modulus ->
  Forall (input_fits fuel padding stride in_channel kernel_h kernel_w h) inputs ->
  padding <= 0 \/ NoDup inputs ->
  exists h'' new,
    Forward fuel L h' inputs outputs = Finished kInferSuccess h'' (outputs ++ new) /\
    Forall2 (fun q r =>
       exists l t lo o,
         q = Some l /\ h !! l = Some t /\ r = Some lo /\ h'' !! lo = Some o /\
         shape o = (output_channel,
                    (n_rows t + 2 * padding - kernel_h) / stride + 1,
                    (n_cols t + 2 * padding - kernel_w) / stride + 1))
      inputs new.
Proof.
  intros Hoc Hic Hkh Hkw Hp Hs Hnew Hne Hn Hfit Hdis.
  assert (0 <= output_channel) as Hoc0 by lia.
  destruct (ConvolutionLayer_new_built _ _ _ _ _ _ _ _ _ _ Hoc0 Hnew)
    as ((Hcount & Hws & Hbs) & HLp & HLs & HLu & (ext & ->)).
  destruct (ConvolutionLayer_new_locations _ _ _ _ _ _ _ _ _ _ Hnew) as [_ Hall].
  assert (valid_call fuel L (h ++ ext) inputs in_channel kernel_h kernel_w) as Hvalid.
  { split; try done; try (rewrite HLp; done).
    - split; try done; try lia.
      + intros Hnil. rewrite Hnil in Hcount. cbn in Hcount. lia.
      + intros Hu. rewrite Hu in HLu. subst use_bias. destruct Hbs as [Hlb Hbs].
        split; [done|]. eapply Forall_impl; [exact Hbs|].
        intros q (l & b & -> & Hl & Hsh). exists l, b. split; [done|]. split; [done|].
        injection Hsh as Hb1 Hb2 Hb3. unfold tensor_empty. by rewrite Hb1, Hb2, Hb3.
    - eapply Forall_impl; [exact Hfit|].
      intros q (l & t & -> & Hl & Hch & Hr & Hc & Hrm & Hcm & Hfr' & Hfc).
      exists l, t. split; [done|]. split; rewrite ?HLp, ?HLs; try done.
      + by apply lookup_app_l_Some.
      + right. pose proof (lookup_lt_Some _ _ _ Hl) as Hlt.
        split; intros Hin.
        * destruct (Hall (Some l)) as (l' & [= <-] & Hl'); [|lia].
          apply elem_of_app. by left.
        * destruct (Hall (Some l)) as (l' & [= <-] & Hl'); [|lia].
          apply elem_of_app. by right. }
  destruct (Forward_valid fuel L (h ++ ext) inputs outputs _ _ _ Hvalid)
    as (h'' & new & Hrun & Hsized).
  exists h'', new. split; [done|].
  eapply Forall2_impl_elem; [exact Hsized|].
  intros q r Hq (l & t & lo & o & -> & Hl & -> & Hlo & Hch & Hr & Hc).
  rewrite Forall_forall in Hfit.
  destruct (Hfit _ Hq) as (l' & t' & [= <-] & Hl' & _).
  rewrite (lookup_app_l_Some _ _ _ _ Hl') in Hl. injection Hl as <-.
  exists l, t', lo, o. repeat split; try done.
  unfold shape, output_size in *. rewrite HLp, HLs in Hr, Hc.
  by rewrite Hch, Hr, Hc, Hcount.
Qed.

Lemma ConvolutionLayer_new_Forward_5x5 :
  exists h' L h'' new,
    ConvolutionLayer_new 2 1 3 3 1 2 true store_5x5 = (h', L) /\
    Forward 7 L h' [Some 0%nat] [] = Finished kInferSuccess h'' ([] ++ new) /\
    Forall2 (fun q r =>
       exists l t lo o,
         q = Some l /\ store_5x5 !! l = Some t /\ r = Some lo /\ h'' !! lo = Some o /\
         shape o = (2, (n_rows t + 2 * 1 - 3) / 2 + 1, (n_cols t + 2 * 1 - 3) / 2 + 1))
      [Some 0%nat] new.
Proof.
  exists (ConvolutionLayer_new 2 1 3 3 1 2 true store_5x5).1,
         (ConvolutionLayer_new 2 1 3 3 1 2 true store_5x5).2.
  edestruct (ConvolutionLayer_new_Forward 7 2 1 3 3 1 2 true store_5x5
               (ConvolutionLayer_new 2 1 3 3 1 2 true store_5x5).1
               (ConvolutionLayer_new 2 1 3 3 1 2 true store_5x5).2
               [Some 0%nat] []) as (h'' & new & Hrun & Hall);
    [by vm_compute | by vm_compute | lia | lia | lia | lia | reflexivity | done
    | by vm_compute | | right; apply NoDup_singleton |].
  - constructor; [|constructor]. exists 0%nat, (constant 1 5 5 1%float).
    split; [reflexivity|]. split; [reflexivity|]. by vm_compute.
  - exists h'', new. split; [reflexivity|]. split; [exact Hrun | exact Hall].
Defined.

(** ** The builder: what the statuses tell, and what gets none *)

Lemma parse_params_read ps p :
  parse_params ps = Next p <-> params_read ps p.
Proof.
  unfold parse_params, require, params_read. split.
  - destruct (ps !! "in_channels") as [[]|]; cbn; try done.
    destruct (ps !! "out_channels") as [[]|]; cbn; try done.
    destruct (ps !! "padding") as [[]|]; cbn; try done.
    destruct (ps !! "bias") as [[]|]; cbn; try done.
    destruct (ps !! "stride") as [[]|]; cbn; try done.
    destruct (ps !! "kernel_size") as [[]|]; cbn; try done.
    by intros [= <-].
  - intros (-> & -> & -> & -> & -> & ->). cbn. by destruct p.
Qed.

Lemma parse_params_return ps s :
  parse_params ps = Return s -> s ∈ required.*2.
Proof.
  pose proof (parse_params_first_failure ps) as Hff.
  destruct (first_failure ps required) as [sig|] eqn:Hf.
  - rewrite Hff. intros [= <-].
    apply first_failure_elem in Hf as (key & v & Hin & _).
    apply list_elem_of_fmap. by exists (key, v, sig).
  - destruct Hff as [p ->]. done.
Qed.

(** X13: an array parameter that has not exactly two entries is not
    reported by a status: with the six parameters there and of their
    variants, a padding, stride or kernel_size array of another length
    stops the builder at its CHECK, before any layer is made. *)
Theorem GetInstance_array_lengths op cl h p :
  params_read (params op) p ->
  length (p_kernel p) <> 2%nat \/ length (p_stride p) <> 2%nat \/
  length (p_padding p) <> 2%nat ->
  GetInstance (Some op) cl h = BuildAborted CheckFailed.
Proof.
  intros Hp%parse_params_read Hlen. unfold GetInstance. rewrite Hp.
  replace (_ && _ && _) with false; [done|].
  symmetry. rewrite !andb_false_iff, !Nat.eqb_neq. tauto.
Qed.

Lemma GetInstance_array_lengths_three :
  GetInstance (Some op_three_strides) None [] = BuildAborted CheckFailed.
Proof.
  apply (GetInstance_array_lengths op_three_strides None []
           (mkParams 1 1 [0; 0] true [1; 1; 1] [1; 1])).
  - by vm_compute.
  - right. left. by vm_compute.
Defined.

(** X14: the builder uses the first entry of padding and of stride only:
    two operators that differ in the second entries of these arrays and
    in nothing else end the same way, with the same layer and store. *)
Theorem GetInstance_second_entries ps attrs p q q' s r r' cl h :
  GetInstance
    (Some (mkOp (<["padding" := RuntimeParameterIntArray [p; q]]>
                   (<["stride" := RuntimeParameterIntArray [s; r]]> ps)) attrs)) cl h =
  GetInstance
    (Some (mkOp (<["padding" := RuntimeParameterIntArray [p; q']]>
                   (<["stride" := RuntimeParameterIntArray [s; r']]> ps)) attrs)) cl h.
Proof.
  unfold GetInstance, parse_params, require. cbn [params attribute].
  rewrite !(lookup_insert_ne _ "padding" "in_channels") by done.
  rewrite !(lookup_insert_ne _ "stride" "in_channels") by done.
  rewrite !(lookup_insert_ne _ "padding" "out_channels") by done.
  rewrite !(lookup_insert_ne _ "stride" "out_channels") by done.
  rewrite !(lookup_insert_ne _ "padding" "bias") by done.
  rewrite !(lookup_insert_ne _ "stride" "bias") by done.
  rewrite !(lookup_insert_ne _ "padding" "kernel_size") by done.
  rewrite !(lookup_insert_ne _ "stride" "kernel_size") by done.
  rewrite !(lookup_insert_ne _ "padding" "stride") by done.
  rewrite !lookup_insert_eq.
  destruct (ps !! "in_channels") as [[]|]; cbn; try done.
  destruct (ps !! "out_channels") as [[]|]; cbn; try done.
  destruct (ps !! "bias") as [[]|]; cbn; try done.
  destruct (ps !! "kernel_size") as [[]|]; cbn; try done.
Qed.

Lemma same_shapes_refl h : same_shapes h h.
Proof. intros l t Hl. by exists t. Qed.

Lemma same_shapes_trans h1 h2 h3 :
  same_shapes h1 h2 -> same_shapes h2 h3 -> same_shapes h1 h3.
Proof.
  intros H12 H23 l t Hl. destruct (H12 l t Hl) as (t2 & Hl2 & Hs2).
  destruct (H23 l t2 Hl2) as (t3 & Hl3 & Hs3). exists t3. split; [done | congruence].
Qed.

Lemma same_shapes_insert (h : heap) l t t' :
  h !! l = Some t -> shape t' = shape t -> same_shapes h (<[l := t']> h).
Proof.
  intros Hl Hs l' t0 Hl'. destruct (decide (l' = l)) as [->|Hne].
  - rewrite list_lookup_insert_eq by (by eapply lookup_lt_Some).
    exists t'. split; [done | congruence].
  - rewrite list_lookup_insert_ne by done. by exists t0.
Qed.

Lemma set_bias_shapes bias : forall vals h h',
  set_bias bias vals h = Next h' -> same_shapes h h'.
Proof.
  induction bias as [|[l|] bias IH]; intros [|v vals] h h'; cbn;
    try (intros [= <-]; apply same_shapes_refl); try done.
  destruct (h !! l) as [t|] eqn:Hl; cbn; [|done].
  intros Hrest%IH. eapply same_shapes_trans; [|exact Hrest].
  by eapply same_shapes_insert.
Qed.

Lemma distribute_shapes vals ws : forall off h h',
  distribute ws vals off h = Next h' -> same_shapes h h'.
Proof.
  induction ws as [|[l|] ws IH]; intros off h h'; cbn;
    try (intros [= <-]; apply same_shapes_refl); try done.
  destruct (h !! l) as [t|] eqn:Hl; cbn; [|done].
  intros Hrest%IH. eapply same_shapes_trans; [|exact Hrest].
  by eapply same_shapes_insert.
Qed.

Lemma set_weights_shapes ws vals h h' :
  set_weights ws vals h = Next h' -> same_shapes h h'.
Proof.
  unfold set_weights. destruct (total_volume h ws) as [n| |]; cbn; try done.
  destruct (n =? _); cbn; [|done]. apply distribute_shapes.
Qed.

Lemma load_attributes_layer attrs oc L h s cl h' :
  load_attributes attrs oc L h = Built s cl h' -> cl = Some L /\ same_shapes h h'.
Proof.
  unfold load_attributes.
  destruct (attrs !! "bias") as [bias|];
    [|intros [= _ <- <-]; split; [done | apply same_shapes_refl]].
  destruct (_ || _); [intros [= _ <- <-]; split; [done | apply same_shapes_refl]|].
  destruct (set_bias _ _ _) as [h1|s1|f] eqn:Hb; [| |done].
  - apply set_bias_shapes in Hb.
    destruct (attrs !! "weight") as [weight|]; [|by intros [= _ <- <-]].
    destruct (bool_decide _); [by intros [= _ <- <-]|].
    destruct (set_weights _ _ _) as [h2|s2|f] eqn:Hw; [| |done].
    + apply set_weights_shapes in Hw. intros [= _ <- <-]. split; [done|].
      by eapply same_shapes_trans.
    + by intros [= _ <- <-].
  - intros [= _ <- <-]. split; [done | apply same_shapes_refl].
Qed.

(** The builder past its parameters and its CHECKs: the layer it makes. *)
Lemma GetInstance_built op cl h p k0 k1 pad pad' st st' s cl' h' :
  params_read (params op) p ->
  p_kernel p = [k0; k1] -> p_padding p = [pad; pad'] -> p_stride p = [st; st'] ->
  GetInstance (Some op) cl h = Built s cl' h' ->
  exists h1 L,
    ConvolutionLayer_new (U32.wrap (p_out_channel p)) (U32.wrap (p_in_channel p))
      (U32.wrap k0) (U32.wrap k1) (U32.wrap pad) (U32.wrap st) (p_use_bias p) h
      = (h1, L) /\
    cl' = Some L /\ same_shapes h1 h'.
Proof.
  intros Hp%parse_params_read Hk Hpad Hst. unfold GetInstance.
  rewrite Hp, Hk, Hpad, Hst. cbn.
  destruct (ConvolutionLayer_new _ _ _ _ _ _ _ _) as [h1 L].
  intros Hload%load_attributes_layer. by exists h1, L.
Qed.

(** X15: once the parameters are read, the caller's handle gets the new
    layer whatever the attributes are like, also when the builder then
    fails with an attribute status. The layer has the first entry of
    padding as its padding, the first entry of stride as its stride, the
    bias flag, out_channels weight pointers and, with the bias flag, as
    many bias pointers, otherwise none (all as 32-bit unsigned values). *)
Theorem GetInstance_layer_fields op cl h p k0 k1 pad pad' st st' s cl' h' :
  params_read (params op) p ->
  p_kernel p = [k0; k1] -> p_padding p = [pad; pad'] -> p_stride p = [st; st'] ->
  GetInstance (Some op) cl h = Built s cl' h' ->
  exists L,
    cl' = Some L /\
    padding_ L = U32.wrap pad /\ stride_ L = U32.wrap st /\
    use_bias_ L = p_use_bias p /\
    Z.of_nat (length (weights_ L)) = U32.wrap (p_out_channel p) /\
    length (bias_ L) = (if p_use_bias p then length (weights_ L) else 0%nat).
Proof.
  intros Hp Hk Hpad Hst Hrun.
  destruct (GetInstance_built _ _ _ _ _ _ _ _ _ _ _ _ _ Hp Hk Hpad Hst Hrun)
    as (h1 & L & Hnew & -> & _).
  apply ConvolutionLayer_new_built in Hnew
    as ((Hcount & _ & Hbs) & HLp & HLs & HLu & _);
    [|apply Z.mod_pos_bound; done].
  exists L. repeat split; try done.
  destruct (p_use_bias p); [by destruct Hbs | by rewrite Hbs].
Qed.

Lemma op_no_bias_built :
  exists L h',
    GetInstance (Some op_no_bias) None [] =
      Built kParameterMissingAttrBias (Some L) h'.
Proof. eexists _, _. reflexivity. Defined.

Lemma GetInstance_layer_fields_no_bias :
  exists h' L,
    GetInstance (Some op_no_bias) None [] =
      Built kParameterMissingAttrBias (Some L) h' /\
    padding_ L = U32.wrap 0 /\ stride_ L = U32.wrap 1 /\ use_bias_ L = false /\
    Z.of_nat (length (weights_ L)) = U32.wrap 1 /\ length (bias_ L) = 0%nat.
Proof.
  destruct op_no_bias_built as (L0 & h' & Hrun).
  destruct (GetInstance_layer_fields op_no_bias None []
              (mkParams 1 1 [0; 0] false [1; 1] [1; 1]) 1 1 0 0 1 1
              kParameterMissingAttrBias (Some L0) h')
    as (L & HL & Hrest);
    [by vm_compute | reflexivity | reflexivity | reflexivity | exact Hrun |].
  exists h', L. rewrite <- HL. split; [exact Hrun | exact Hrest].
Defined.

Lemma holds_shape_same_shapes (h h' : heap) sh p :
  same_shapes h h' -> holds_shape h sh p -> holds_shape h' sh p.
Proof.
  intros Hsame (l & t & -> & Hl & Hs). destruct (Hsame l t Hl) as (t' & Hl' & Hs').
  exists l, t'. split; [done|]. split; [done | congruence].
Qed.

(** X16: kernel_size is read as [height, width]. Whenever the builder ends
    with a status after reading the parameters, each weight tensor of
    the layer has in_channels channels, kernel_size[0] rows and
    kernel_size[1] columns, and each bias tensor is 1x1x1, in the store
    the builder leaves. *)
Theorem GetInstance_layer_shapes op cl h p k0 k1 pad pad' st st' s cl' h' :
  params_read (params op) p ->
  p_kernel p = [k0; k1] -> p_padding p = [pad; pad'] -> p_stride p = [st; st'] ->
  GetInstance (Some op) cl h = Built s cl' h' ->
  exists L,
    cl' = Some L /\
    Forall (holds_shape h' (U32.wrap (p_in_channel p), U32.wrap k0, U32.wrap k1))
           (weights_ L) /\
    Forall (holds_shape h' (1, 1, 1)) (bias_ L).
Proof.
  intros Hp Hk Hpad Hst Hrun.
  destruct (GetInstance_built _ _ _ _ _ _ _ _ _ _ _ _ _ Hp Hk Hpad Hst Hrun)
    as (h1 & L & Hnew & -> & Hsame).
  apply ConvolutionLayer_new_built in Hnew as ((_ & Hws & Hbs) & _);
    [|apply Z.mod_pos_bound; done].
  exists L. split; [done|]. split.
  - eapply Forall_impl; [exact Hws|]. intros q. by apply holds_shape_same_shapes.
  - destruct (p_use_bias p).
    + destruct Hbs as [_ Hbs]. eapply Forall_impl; [exact Hbs|].
      intros q. by apply holds_shape_same_shapes.
    + rewrite Hbs. constructor.
Qed.

Lemma op_tall_built :
  exists s L h', GetInstance (Some op_tall) None [] = Built s (Some L) h'.
Proof. eexists _, _, _. reflexivity. Defined.

Lemma GetInstance_layer_shapes_tall :
  exists s L h',
    GetInstance (Some op_tall) None [] = Built s (Some L) h' /\
    Forall (holds_shape h' (U32.wrap 3, U32.wrap 5, U32.wrap 2)) (weights_ L) /\
    Forall (holds_shape h' (1, 1, 1)) (bias_ L).
Proof.
  destruct op_tall_built as (s & L0 & h' & Hrun).
  destruct (GetInstance_layer_shapes op_tall None []
              (mkParams 3 2 [0; 0] true [1; 1] [5; 2]) 5 2 0 0 1 1 s (Some L0) h')
    as (L & HL & Hrest);
    [by vm_compute | reflexivity | reflexivity | reflexivity | exact Hrun |].
  exists s, L, h'. rewrite <- HL. split; [exact Hrun | exact Hrest].
Defined.

Lemma bias_attribute_test attrs oc b :
  attrs !! "bias" = Some b ->
  bool_decide (attr_shape b = []) ||
    negb (default 0 (attr_shape b !! 0%nat) =? oc) = false ->
  ~ bias_attribute_bad attrs oc.
Proof.
  intros Hb Htest. unfold bias_attribute_bad. rewrite Hb.
  apply orb_false_iff in Htest as [Hnil Hhead].
  apply bool_decide_eq_false in Hnil. apply negb_false_iff, Z.eqb_eq in Hhead.
  intros [Hbad|Hbad]; [done|].
  destruct (attr_shape b) as [|d ds]; [done|]. cbn in Hhead, Hbad. congruence.
Qed.

Lemma load_attributes_causes attrs oc L h s cl h' :
  load_attributes attrs oc L h = Built s cl h' ->
  (s = kParameterMissingAttrBias -> bias_attribute_bad attrs oc) /\
  (s = kParameterMissingAttrWeight ->
   ~ bias_attribute_bad attrs oc /\ weight_attribute_bad attrs) /\
  (s = kParameterParseSuccess ->
   ~ bias_attribute_bad attrs oc /\ ~ weight_attribute_bad attrs).
Proof.
  unfold load_attributes.
  destruct (attrs !! "bias") as [bias|] eqn:Hb; cycle 1.
  { intros [= <- _ _]. repeat split; try done. unfold bias_attribute_bad. by rewrite Hb. }
  destruct (_ || _) eqn:Htest.
  { intros [= <- _ _]. repeat split; try done. intros _.
    unfold bias_attribute_bad. rewrite Hb.
    apply orb_true_iff in Htest as [Hnil|Hhead].
    - left. by apply bool_decide_eq_true in Hnil.
    - right. apply negb_true_iff, Z.eqb_neq in Hhead.
      destruct (attr_shape bias) as [|d ds]; [done|]. cbn in *. congruence. }
  pose proof (bias_attribute_test attrs oc bias Hb Htest) as Hgood.
  destruct (set_bias _ _ _) as [h1|s1|f] eqn:Hsb; [| |done]; cycle 1.
  { exfalso. revert Hsb. by apply (returns_in_set_bias (fun _ => False)). }
  destruct (attrs !! "weight") as [weight|] eqn:Hw; cycle 1.
  { intros [= <- _ _]. repeat split; try done. unfold weight_attribute_bad. by rewrite Hw. }
  destruct (bool_decide (attr_shape weight = [])) eqn:Hnil.
  { intros [= <- _ _]. repeat split; try done. unfold weight_attribute_bad. rewrite Hw.
    by apply bool_decide_eq_true in Hnil. }
  apply bool_decide_eq_false in Hnil.
  destruct (set_weights _ _ _) as [h2|s2|f] eqn:Hsw; [| |done]; cycle 1.
  { exfalso. revert Hsw. by apply (returns_in_set_weights (fun _ => False)). }
  intros [= <- _ _]. repeat split; try done.
  unfold weight_attribute_bad. by rewrite Hw.
Qed.

(** X17: the statuses of the attribute phase name their cause. When the
    builder returns the bias-attribute status, the six parameters were
    read and the "bias" attribute is absent, or has an empty shape, or a
    first shape entry other than out_channels; when it returns the
    weight-attribute status, the bias attribute passed and the "weight"
    attribute is absent or has an empty shape; when it returns success,
    the parameters were read, the three arrays have two entries, and both
    attributes passed. *)
Theorem GetInstance_statuses op cl h s cl' h' :
  GetInstance (Some op) cl h = Built s cl' h' ->
  (s = kParameterMissingAttrBias ->
   exists p, params_read (params op) p /\
             bias_attribute_bad (attribute op) (p_out_channel p)) /\
  (s = kParameterMissingAttrWeight ->
   exists p, params_read (params op) p /\
             ~ bias_attribute_bad (attribute op) (p_out_channel p) /\
             weight_attribute_bad (attribute op)) /\
  (s = kParameterParseSuccess ->
   exists p, params_read (params op) p /\
             length (p_kernel p) = 2%nat /\ length (p_stride p) = 2%nat /\
             length (p_padding p) = 2%nat /\
             ~ bias_attribute_bad (attribute op) (p_out_channel p) /\
             ~ weight_attribute_bad (attribute op)).
Proof.
  unfold GetInstance.
  destruct (parse_params (params op)) as [p|s0|f] eqn:Hp; [| |done].
  - apply parse_params_read in Hp.
    destruct (_ && _ && _) eqn:Hlen; cbn; [|done].
    apply andb_true_iff in Hlen as [[Hk Hs]%andb_true_iff Hpad].
    apply Nat.eqb_eq in Hk, Hs, Hpad.
    destruct (ConvolutionLayer_new _ _ _ _ _ _ _ _) as [h1 L].
    intros (Hbias & Hweight & Hok)%load_attributes_causes.
    split; [|split].
    + intros Hs'. exists p. split; [done|]. by apply Hbias.
    + intros Hs'. exists p. split; [done|]. by apply Hweight.
    + intros Hs'. exists p. destruct (Hok Hs') as [Hb Hw].
      split; [done|]. split; [done|]. split; [done|]. split; [done|]. by split.
  - intros [= <- _ _]. apply parse_params_return in Hp.
    split; [|split]; intros ->; exfalso; revert Hp; cbn;
      rewrite !elem_of_cons, elem_of_nil; intros H;
      repeat (destruct H as [H|H]; [discriminate|]); done.
Qed.

Lemma GetInstance_statuses_no_bias :
  exists p, params_read (params op_no_bias) p /\
            bias_attribute_bad (attribute op_no_bias) (p_out_channel p).
Proof.
  destruct op_no_bias_built as (L & h' & Hrun).
  apply (GetInstance_statuses op_no_bias None [] kParameterMissingAttrBias
           (Some L) h' Hrun). reflexivity.
Defined.
